(** * tree.py: a directory walker and its renderer

    A shallow embedding of [tree.py] (classes [Item], [Tree], [GraphTree])
    together with the parts of the Python runtime it calls: string
    comparison, [sorted], [pathlib.Path], [fnmatch.fnmatch] and [print].

    Python values are represented as follows.
    - [str] is a list of Unicode code points ([N]); comparison of two
      [str] is the lexicographic comparison of code points.
    - [pathlib.Path] is the list of its components below the root ["/"].
    - exceptions are values of [exn]; a call that may raise returns a
      [result].
    - the file system is a record of the queries the walker performs,
      each of which may raise; every query is logged, which gives a
      meaning to "visited".
    - the items are values of [Item]; for the renderer they are also held
      as objects in a store, where a program can assign to them. *)

From Stdlib Require Import String Ascii.
From Stdlib Require Import List ZArith NArith Lia Bool.
From Stdlib Require Import Sorting.Sorted Sorting.Permutation.
Import ListNotations.

Set Implicit Arguments.
Local Open Scope list_scope.

(** ** Strings *)

Module Str.

Definition char := N.
Definition str := list char.

(** An ASCII literal as a Python [str]. *)
Definition lit (s : string) : str := map N_of_ascii (list_ascii_of_string s).

Definition eqb (a b : str) : bool :=
  if list_eq_dec N.eq_dec a b then true else false.

(** Lexicographic comparison of sequences, as Python does it for [str],
    [list] and [tuple]. *)
Fixpoint lex_compare {A} (cmp : A -> A -> comparison) (a b : list A) : comparison :=
  match a, b with
  | [], [] => Eq
  | [], _ :: _ => Lt
  | _ :: _, [] => Gt
  | x :: a', y :: b' =>
      match cmp x y with
      | Eq => lex_compare cmp a' b'
      | c => c
      end
  end.

Definition compare : str -> str -> comparison := lex_compare N.compare.
Definition ltb (a b : str) : bool :=
  match compare a b with Lt => true | _ => false end.
Definition le (a b : str) : Prop := compare a b <> Gt.

End Str.

Import Str.

(** ** Exceptions *)

Inductive exn :=
| OSError (path : list str)      (* FileNotFoundError, NotADirectoryError, ... *)
| RecursionError
| RuntimeError                   (* the symlink loop of Path.resolve *)
| ValueError (msg : str)
| AttributeError
| IndexError
| re_error.

Inductive result (A : Type) :=
| Ok (a : A)
| Raise (e : exn).
Arguments Ok {A} a.
Arguments Raise {A} e.

Definition rbind {A B} (r : result A) (k : A -> result B) : result B :=
  match r with
  | Ok a => k a
  | Raise e => Raise e
  end.

Declare Scope result_scope.
Delimit Scope result_scope with result.
Notation "x <-- r ;; k" := (rbind r (fun x => k))
  (at level 100, r at next level, right associativity) : result_scope.

(** ** fnmatch

    [fnmatch.fnmatch] as CPython implements it: [fnmatch.translate] turns
    the shell pattern into a regular expression, which [re.compile]
    parses and [match] runs.  The model keeps the stages.  The regular
    expression is kept as a list of pieces instead of text, and the text
    of a character set as a list of tokens in which a backslash-escaped
    character is already a literal.  Two calls can raise: an index into
    an empty list or string ([IndexError]) and the parser of sets on a
    reversed range ([re.error]). *)

Module Fnmatch.

Local Open Scope N_scope.
Local Open Scope result_scope.

Definition STAR_c : char := 42.       (* '*' *)
Definition QMARK_c : char := 63.      (* '?' *)
Definition LBRACKET_c : char := 91.   (* '[' *)
Definition RBRACKET_c : char := 93.   (* ']' *)
Definition BANG_c : char := 33.       (* '!' *)
Definition HYPHEN_c : char := 45.     (* '-' *)

(** One token of the text between [[] and []]: a literal character, plain
    or escaped ([\\], [\-], [\&], [\~], [\|], [\^], [\[]), or the bare
    hyphen that [translate] puts between two chunks. *)
Inductive class_tok :=
| CLit (c : char)
| CDash.

(** The elements of [res] in [translate]. *)
Inductive re_piece :=
| STAR
| AnyChar                                   (* '.' under (?s) *)
| Never                                     (* '(?!)' *)
| Literal (c : char)                        (* re.escape(c) *)
| CharSet (negate : bool) (body : list class_tok).   (* '[' stuff ']' *)

(** [j < n and pat[j] == c] *)
Definition char_at (s : str) (j : nat) (c : char) : bool :=
  match nth_error s j with
  | Some x => x =? c
  | None => false
  end.

(** [s.find(c, start)]: the least index [>= start] that holds [c]. *)
Fixpoint find (c : char) (s : str) (start : nat) : option nat :=
  match s with
  | [] => None
  | x :: s' =>
      match start with
      | S k => option_map S (find c s' k)
      | O => if x =? c then Some O else option_map S (find c s' O)
      end
  end.

(** The search of the closing bracket; [rest] is [pat[i:]], the text after
    the opening bracket, and the result is [j - i].
<<
    j = i
    if j < n and pat[j] == '!': j = j+1
    if j < n and pat[j] == ']': j = j+1
    while j < n and pat[j] != ']': j = j+1
>> *)
Definition close_index (rest : str) : option nat :=
  let j := O in
  let j := if char_at rest j BANG_c then S j else j in
  let j := if char_at rest j RBRACKET_c then S j else j in
  find RBRACKET_c rest j.

(** The [while True] loop that cuts [stuff] at its range hyphens.  [skip]
    counts the characters that [pat.find('-', k, j)] does not look at
    ([k] starts at [i+1] or [i+2], and is moved to [k+3] after a hyphen at
    [k]); [cur] is [pat[i:..]] read so far.  The result is [chunks] and the
    final [chunk = pat[i:j]]. *)
Fixpoint split_chunks (skip : nat) (cur : str) (s : str) : list str * str :=
  match s with
  | [] => ([], cur)
  | c :: s' =>
      match skip with
      | S n => split_chunks n (cur ++ [c]) s'
      | O =>
          if c =? HYPHEN_c
          then let (chunks, chunk) := split_chunks 2 [] s' in (cur :: chunks, chunk)
          else split_chunks O (cur ++ [c]) s'
      end
  end.

(** <<
    if chunk: chunks.append(chunk)
    else: chunks[-1] += '-'
>> *)
Definition close_chunks (chunks : list str) (chunk : str) : result (list str) :=
  match chunk with
  | _ :: _ => Ok (chunks ++ [chunk])
  | [] =>
      match rev chunks with
      | [] => Raise IndexError
      | c :: before => Ok (rev before ++ [c ++ [HYPHEN_c]])
      end
  end.

(** <<
    for k in range(len(chunks)-1, 0, -1):
        if chunks[k-1][-1] > chunks[k][0]:
            chunks[k-1] = chunks[k-1][:-1] + chunks[k][1:]
            del chunks[k]
>>
    The loop runs from the right, so the chunk at [k] is the head of the
    already processed suffix. *)
Fixpoint remove_empty_ranges (chunks : list str) : result (list str) :=
  match chunks with
  | [] => Ok []
  | c :: rest =>
      rest' <-- remove_empty_ranges rest ;;
      match rest' with
      | [] => Ok [c]
      | d :: more =>
          match rev c, d with
          | x :: _, y :: _ =>
              if y <? x
              then Ok ((removelast c ++ tl d) :: more)
              else Ok (c :: d :: more)
          | _, _ => Raise IndexError
          end
      end
  end.

(** ['-'.join(...)] over the escaped chunks. *)
Fixpoint join_chunks (chunks : list str) : list class_tok :=
  match chunks with
  | [] => []
  | [c] => map CLit c
  | c :: rest => map CLit c ++ CDash :: join_chunks rest
  end.

(** The text of the set, from [stuff = pat[i:j]]. *)
Definition set_text (stuff : str) : result (list class_tok) :=
  if negb (existsb (N.eqb HYPHEN_c) stuff)
  then Ok (map CLit stuff)
  else
    let (chunks, chunk) := split_chunks (if char_at stuff 0 BANG_c then 2 else 1) [] stuff in
    chunks <-- close_chunks chunks chunk ;;
    chunks <-- remove_empty_ranges chunks ;;
    Ok (join_chunks chunks).

(** <<
    if not stuff: add('(?!)')
    elif stuff == '!': add('.')
    else:
        if stuff[0] == '!': stuff = '^' + stuff[1:]
        elif stuff[0] in ('^', '['): stuff = '\\' + stuff
        add(f'[{stuff}]')
>> *)
Definition is_bang (t : class_tok) : bool :=
  match t with
  | CLit c => c =? BANG_c
  | CDash => false
  end.

Definition set_piece (text : list class_tok) : re_piece :=
  match text with
  | [] => Never
  | first :: body =>
      if is_bang first then
        match body with
        | [] => AnyChar
        | _ :: _ => CharSet true body
        end
      else CharSet false text
  end.

Definition ends_with_STAR (res : list re_piece) : bool :=
  match rev res with
  | STAR :: _ => true
  | _ => false
  end.

(** The first loop of [translate].  [skip] is the number of characters up
    to [i = j+1] after a bracket expression has been read. *)
Fixpoint translate_loop (pat : str) (skip : nat) (res : list re_piece)
  : result (list re_piece) :=
  match pat with
  | [] => Ok res
  | c :: rest =>
      match skip with
      | S k => translate_loop rest k res
      | O =>
          if c =? STAR_c then
            translate_loop rest O (if ends_with_STAR res then res else res ++ [STAR])
          else if c =? QMARK_c then
            translate_loop rest O (res ++ [AnyChar])
          else if c =? LBRACKET_c then
            match close_index rest with
            | None => translate_loop rest O (res ++ [Literal LBRACKET_c])
            | Some j =>
                text <-- set_text (firstn j rest) ;;
                translate_loop rest (S j) (res ++ [set_piece text])
            end
          else translate_loop rest O (res ++ [Literal c])
      end
  end.

Definition translate (pat : str) : result (list re_piece) :=
  translate_loop pat O [].

(** *** re.compile and match *)

(** A compiled piece: what one character must satisfy, or a star. *)
Inductive matcher :=
| MStar
| MAny
| MNever
| MChar (c : char)
| MSet (negate : bool) (ranges : list (char * char)).

Definition tok_char (t : class_tok) : char :=
  match t with
  | CLit c => c
  | CDash => HYPHEN_c
  end.

(** The loop of the regular expression parser over the text of a set: an
    item followed by a bare hyphen and another item is a range, which is
    refused when its bounds are reversed; a bare hyphen before the closing
    bracket is a literal. *)
Fixpoint parse_set (text : list class_tok) : result (list (char * char)) :=
  match text with
  | [] => Ok []
  | this :: CDash :: [] =>
      Ok [(tok_char this, tok_char this); (HYPHEN_c, HYPHEN_c)]
  | this :: CDash :: that :: text' =>
      let lo := tok_char this in
      let hi := tok_char that in
      if hi <? lo then Raise re_error
      else items <-- parse_set text' ;; Ok ((lo, hi) :: items)
  | this :: text' =>
      items <-- parse_set text' ;; Ok ((tok_char this, tok_char this) :: items)
  end.

Definition compile_piece (p : re_piece) : result matcher :=
  match p with
  | STAR => Ok MStar
  | AnyChar => Ok MAny
  | Never => Ok MNever
  | Literal c => Ok (MChar c)
  | CharSet negate body =>
      ranges <-- parse_set body ;; Ok (MSet negate ranges)
  end.

Fixpoint re_compile (res : list re_piece) : result (list matcher) :=
  match res with
  | [] => Ok []
  | p :: res' =>
      m <-- compile_piece p ;;
      ms <-- re_compile res' ;;
      Ok (m :: ms)
  end.

Definition in_ranges (ranges : list (char * char)) (c : char) : bool :=
  existsb (fun r => (fst r <=? c) && (c <=? snd r)) ranges.

Definition match_char (m : matcher) (c : char) : bool :=
  match m with
  | MStar => false
  | MAny => true
  | MNever => false
  | MChar x => c =? x
  | MSet negate ranges => xorb negate (in_ranges ranges c)
  end.

(** Does the whole of [s] match?  A star takes any run of characters, every
    other piece takes exactly one. *)
Fixpoint re_match (ms : list matcher) (s : str) : bool :=
  match ms with
  | [] => match s with [] => true | _ => false end
  | MStar :: ms' =>
      (fix star (s : str) : bool :=
         re_match ms' s || match s with [] => false | _ :: s' => star s' end) s
  | m :: ms' =>
      match s with
      | [] => false
      | c :: s' => match_char m c && re_match ms' s'
      end
  end.

(** [fnmatch.fnmatch(name, pat)]; [os.path.normcase] is the identity on
    POSIX. *)
Definition fnmatch (name pat : str) : result bool :=
  res <-- translate pat ;;
  ms <-- re_compile res ;;
  Ok (re_match ms name).

End Fnmatch.

(** ** pathlib.Path *)

Module Path.

(** The components of an absolute path, the root ["/"] left out. *)
Definition t := list str.

(** [p.name]: the final component, [''] for the root. *)
Definition name (p : t) : str := last p [].

(** [p / n] *)
Definition child (p : t) (n : str) : t := p ++ [n].

(** [PurePath.__lt__] compares the lists of components. *)
Definition compare : t -> t -> comparison := lex_compare Str.compare.
Definition ltb (a b : t) : bool :=
  match compare a b with Lt => true | _ => false end.
Definition le (a b : t) : Prop := compare a b <> Gt.

End Path.

(** [sorted(iterable)]: a stable sort by [<]. *)
Fixpoint insert (x : Path.t) (l : list Path.t) : list Path.t :=
  match l with
  | [] => [x]
  | y :: l' => if Path.ltb y x then y :: insert x l' else x :: l
  end.

Definition sorted (l : list Path.t) : list Path.t := fold_right insert [] l.

(** ** The classes of tree.py *)

(** [class TreeElements(Enum)].  [LAST] has the value of [DIRECTORY], so
    Python makes it an alias of that member. *)
Inductive TreeElements := FILE | LINK | DIRECTORY.
Definition LAST := DIRECTORY.

Definition value (e : TreeElements) : str :=
  match e with
  | FILE => [9500; 9472; 9472]%N        (* U+251C U+2500 U+2500 *)
  | LINK => lit "->"
  | DIRECTORY => [9492; 9472; 9472]%N   (* U+2514 U+2500 U+2500 *)
  end.

(** [class Item] and its subclasses [Link], [File], [Directory].  Every
    item the walker makes is built from a [Path], which [Item.__init__]
    stores as it is. *)
#[warnings="-register-all"]
Inductive Item :=
| File (path : Path.t)
| Link (path : Path.t) (target : str)
| Directory (path : Path.t) (children : list Item).

Definition item_path (self : Item) : Path.t :=
  match self with
  | File p | Link p _ | Directory p _ => p
  end.

(** [self.name = self.path.name] *)
Definition item_name (self : Item) : str := Path.name (item_path self).

Definition is_file (self : Item) : bool :=
  match self with File _ => true | _ => false end.
Definition is_link (self : Item) : bool :=
  match self with Link _ _ => true | _ => false end.
Definition is_directory (self : Item) : bool :=
  match self with Directory _ _ => true | _ => false end.

Definition children_of (self : Item) : list Item :=
  match self with
  | Directory _ cs => cs
  | _ => []
  end.

(** ** The file system *)

(** What [pathlib] and [os] answer.  [is_dir] follows symbolic links
    ([stat]), [is_symlink] does not ([lstat]).  Both answer [False] when the
    system call fails with [ENOENT], [ENOTDIR], [EBADF] or [ELOOP], and
    raise the [OSError] of any other failure ([EACCES], [ENAMETOOLONG]);
    [os.readlink] raises whenever the system call fails.  [iterdir] gives
    the names in the order of the operating system, or raises. *)
Record FileSystem := {
  fs_resolve : str -> result Path.t;          (* Path(name).resolve() *)
  fs_iterdir : Path.t -> result (list str);   (* Path.iterdir() *)
  fs_is_dir : Path.t -> result bool;          (* Path.is_dir() *)
  fs_is_symlink : Path.t -> result bool;      (* Path.is_symlink() *)
  fs_readlink : Path.t -> result str          (* os.readlink(path) *)
}.

(** The queries made of the file system, in the order they are made. *)
Inductive event :=
| EvIterdir (p : Path.t)
| EvIsDir (p : Path.t)
| EvIsSymlink (p : Path.t)
| EvReadlink (p : Path.t).

Definition event_path (e : event) : Path.t :=
  match e with
  | EvIterdir p | EvIsDir p | EvIsSymlink p | EvReadlink p => p
  end.

Definition trace := list event.

(** Computations that query the file system and may raise. *)
Definition M (A : Type) : Type := trace -> result A * trace.

Definition ret {A} (a : A) : M A := fun tr => (Ok a, tr).
Definition raise {A} (e : exn) : M A := fun tr => (Raise e, tr).
Definition lift {A} (r : result A) : M A := fun tr => (r, tr).
Definition bind {A B} (m : M A) (k : A -> M B) : M B :=
  fun tr =>
    match m tr with
    | (Ok a, tr') => k a tr'
    | (Raise e, tr') => (Raise e, tr')
    end.

Declare Scope walk_scope.
Delimit Scope walk_scope with walk.
Notation "x <- m ;; k" := (bind m (fun x => k))
  (at level 100, m at next level, right associativity) : walk_scope.

(** [class Tree] *)
Record Tree := {
  root : Item;
  max_depth : option Z;
  exclude : list str
}.

(** The [root] argument of [Tree(...)]: a string or an item. *)
Inductive root_arg :=
| RootStr (s : str)
| RootItem (it : Item).

Section Walker.

Variable fs : FileSystem.

Local Open Scope walk_scope.

Definition iterdir (p : Path.t) : M (list Path.t) :=
  fun tr =>
    match fs_iterdir fs p with
    | Ok names => (Ok (map (Path.child p) names), tr ++ [EvIterdir p])
    | Raise e => (Raise e, tr ++ [EvIterdir p])
    end.

Definition is_dir (p : Path.t) : M bool :=
  fun tr => (fs_is_dir fs p, tr ++ [EvIsDir p]).

Definition is_symlink (p : Path.t) : M bool :=
  fun tr => (fs_is_symlink fs p, tr ++ [EvIsSymlink p]).

Definition readlink (p : Path.t) : M str :=
  fun tr => (fs_readlink fs p, tr ++ [EvReadlink p]).

(** [Directory(name)] for a [str]: [Item.__init__] resolves the path and
    does not look at what is there. *)
Definition Directory_of_str (name : str) : result Item :=
  (path <-- fs_resolve fs name ;; Ok (Directory path []))%result.

(** [Tree.validate_root].  The text of the exception that is wrapped is
    left out of the message. *)
Definition validate_root (r : root_arg) : result Item :=
  (self_root <--
     match r with
     | RootStr s =>
         match Directory_of_str s with
         | Ok d => Ok d
         | Raise _ => Raise (ValueError (lit "Invalid root path"))
         end
     | RootItem it => Ok it
     end ;;
   if negb (is_directory self_root)
   then Raise (ValueError (lit "Root must be a directory"))
   else Ok self_root)%result.

(** [Tree.__init__] *)
Definition Tree_init (r : root_arg) (max_depth : option Z)
    (exclude : option (list str)) : result Tree :=
  (self_root <-- validate_root r ;;
   Ok {| root := self_root;
         max_depth := max_depth;
         exclude := match exclude with Some l => l | None => [] end |})%result.

(** [Tree.break_condition]; Python integers are unbounded. *)
Definition break_condition (self : Tree) (current_depth : Z) : bool :=
  match max_depth self with
  | None => true
  | Some m => (current_depth <? m)%Z
  end.

(** [Tree.skip_condition]: the loop over [self.exclude]. *)
Fixpoint skip_loop (patterns : list str) (item : Path.t) : result bool :=
  match patterns with
  | [] => Ok false
  | pattern :: rest =>
      (matched <-- Fnmatch.fnmatch (Path.name item) pattern ;;
       if matched then Ok true else skip_loop rest item)%result
  end.

Definition skip_condition (self : Tree) (item : Path.t) : result bool :=
  skip_loop (exclude self) item.

(** [Tree.process_item]; [traverse_tree] is the method it calls back. *)
Definition process_item (traverse_tree : Item -> Z -> M Item)
    (self : Tree) (item : Path.t) (current_depth : Z) : M (option Item) :=
  skip <- lift (skip_condition self item) ;;
  if skip then ret None
  else
    d <- is_dir item ;;
    if d then
      let dir_item := Directory item [] in
      if break_condition self current_depth then
        dir_item <- traverse_tree dir_item (current_depth + 1)%Z ;;
        ret (Some dir_item)
      else ret (Some dir_item)
    else
      l <- is_symlink item ;;
      if l then
        target <- readlink item ;;
        ret (Some (Link item target))
      else ret (Some (File item)).

(** [root.children.append(item)]; only a [Directory] has [children]. *)
Definition append_child (root : Item) (item : Item) : result Item :=
  match root with
  | Directory p cs => Ok (Directory p (cs ++ [item]))
  | _ => Raise AttributeError
  end.

(** The [for entry in ...] loop of [Tree.traverse_tree]. *)
Fixpoint traverse_loop (process : Path.t -> M (option Item))
    (root : Item) (entries : list Path.t) : M Item :=
  match entries with
  | [] => ret root
  | entry :: rest =>
      processed_item <- process entry ;;
      match processed_item with
      | Some it =>
          root' <- lift (append_child root it) ;;
          traverse_loop process root' rest
      | None => traverse_loop process root rest
      end
  end.

(** [Tree.traverse_tree].  [fuel] is the depth of recursion the interpreter
    still allows; the call that exceeds it raises [RecursionError]. *)
Fixpoint traverse_tree (fuel : nat) (self : Tree) (root : Item)
    (current_depth : Z) : M Item :=
  match fuel with
  | O => raise RecursionError
  | S fuel' =>
      entries <- iterdir (item_path root) ;;
      traverse_loop
        (fun entry => process_item (traverse_tree fuel' self) self entry current_depth)
        root (sorted entries)
  end.

(** The walk of one root, as [main] runs it: [Tree(root, depth, exclude)]
    and then [tree.traverse_tree(tree.root)]. *)
Definition build_tree (fuel : nat) (r : root_arg) (depth : option Z)
    (exclude : option (list str)) : M Item :=
  tree <- lift (Tree_init r depth exclude) ;;
  traverse_tree fuel tree (root tree) 0%Z.

End Walker.

(** ** The renderer *)

Definition NEWLINE : str := [10%N].
Definition VERTICAL : str := [9474%N].   (* U+2502 *)

(** [GraphTree.draw(item, prefix, is_last)] for an [item] that is not
    [None]; the result is the text that the calls of [print] write.  The
    items of [children] are never [None], so the list comprehension keeps
    them all. *)
Fixpoint draw (item : Item) (prefix : str) (is_last : bool) {struct item} : str :=
  match item with
  | Directory _ children =>
      (fix loop (i : Z) (rest : list Item) {struct rest} : str :=
         match rest with
         | [] => []
         | child :: rest' =>
             let is_last_child := (i =? Z.of_nat (length children) - 1)%Z in
             let connector := if is_last_child then value LAST else value FILE in
             let display_name :=
               if is_directory child then item_name child ++ lit "/"
               else item_name child in
             (prefix ++ connector ++ lit " " ++ display_name)
             ++ match child with
                | Link _ target => lit " " ++ value LINK ++ lit " " ++ target ++ NEWLINE
                | _ => NEWLINE
                end
             ++ (if is_directory child
                 then draw child
                        (prefix ++ (if is_last_child then lit "    " else VERTICAL ++ lit "   "))
                        is_last_child
                 else [])
             ++ loop (i + 1)%Z rest'
         end) 0%Z children
  | _ => []
  end.

(** The body of the [for] loop of [draw], for the children from index [i]
    on, of a directory that has [n] children. *)
Fixpoint draw_loop (n : nat) (prefix : str) (i : Z) (rest : list Item) : str :=
  match rest with
  | [] => []
  | child :: rest' =>
      let is_last_child := (i =? Z.of_nat n - 1)%Z in
      let connector := if is_last_child then value LAST else value FILE in
      let display_name :=
        if is_directory child then item_name child ++ lit "/"
        else item_name child in
      (prefix ++ connector ++ lit " " ++ display_name)
      ++ match child with
         | Link _ target => lit " " ++ value LINK ++ lit " " ++ target ++ NEWLINE
         | _ => NEWLINE
         end
      ++ (if is_directory child
          then draw child
                 (prefix ++ (if is_last_child then lit "    " else VERTICAL ++ lit "   "))
                 is_last_child
          else [])
      ++ draw_loop n prefix (i + 1)%Z rest'
  end.

(** A run of the renderer on item values: the items reachable from
    [GraphTree.root], and the standard output.  The items as objects that
    a program can assign to are modelled further down. *)
Record World := {
  tree : Item;
  stdout : str
}.

(** [GraphTree(root).draw()]: [item is None], so the header line is
    printed and the root is drawn. *)
Definition GraphTree_draw (w : World) : World :=
  let item := tree w in
  {| tree := tree w;
     stdout := stdout w ++ (item_name item ++ lit "/" ++ NEWLINE) ++ draw item [] true |}.

(** The text of one call of [GraphTree(root).draw()]. *)
Definition render (root : Item) : str :=
  stdout (GraphTree_draw {| tree := root; stdout := [] |}).

(** ** The renderer, on the objects of the interpreter

    An item is an object that other objects refer to, and its attributes
    can be assigned: the walker appends to [children].  A [Store] holds
    the item objects by reference, and the text written to the standard
    output; a program takes a store to an outcome and a store. *)

Definition ref := nat.

Inductive object :=
| FileObject (path : Path.t)
| LinkObject (path : Path.t) (target : str)
| DirectoryObject (path : Path.t) (children : list ref).

Record Store := {
  objects : ref -> object;
  written : str
}.

Definition P (A : Type) : Type := Store -> result A * Store.

Definition pret {A} (a : A) : P A := fun s => (Ok a, s).
Definition praise {A} (e : exn) : P A := fun s => (Raise e, s).
Definition pbind {A B} (m : P A) (k : A -> P B) : P B :=
  fun s =>
    match m s with
    | (Ok a, s') => k a s'
    | (Raise e, s') => (Raise e, s')
    end.

Declare Scope draw_scope.
Delimit Scope draw_scope with draw.
Notation "x <- m ;; k" := (pbind m (fun x => k))
  (at level 100, m at next level, right associativity) : draw_scope.

(** The object behind a reference, for the reading of its attributes. *)
Definition load (r : ref) : P object := fun s => (Ok (objects s r), s).

(** [r.children.append(item)], the one assignment the program makes to an
    item (in [Tree.traverse_tree]). *)
Definition children_append (r : ref) (item : ref) : P unit :=
  fun s =>
    match objects s r with
    | DirectoryObject p children =>
        (Ok tt,
         {| objects := fun r' => if Nat.eqb r' r
                                 then DirectoryObject p (children ++ [item])
                                 else objects s r';
            written := written s |})
    | _ => (Raise AttributeError, s)
    end.

(** [print(text, end="")] *)
Definition print (text : str) : P unit :=
  fun s => (Ok tt, {| objects := objects s; written := written s ++ text |}).

Definition object_path (o : object) : Path.t :=
  match o with
  | FileObject p | LinkObject p _ | DirectoryObject p _ => p
  end.

Definition object_name (o : object) : str := Path.name (object_path o).

Definition object_is_directory (o : object) : bool :=
  match o with DirectoryObject _ _ => true | _ => false end.

(** The body of the [for] loop of [draw], for the children from index [i]
    on, of a directory that has [n] children; [draw] is the method the
    loop calls back. *)
Fixpoint draw_children (draw : ref -> str -> bool -> P unit) (n : nat)
    (prefix : str) (i : Z) (rest : list ref) : P unit :=
  match rest with
  | [] => pret tt
  | child :: rest' =>
      (c <- load child ;;
       let is_last_child := (i =? Z.of_nat n - 1)%Z in
       let connector := if is_last_child then value LAST else value FILE in
       let display_name :=
         if object_is_directory c then object_name c ++ lit "/"
         else object_name c in
       _ <- print (prefix ++ connector ++ lit " " ++ display_name) ;;
       _ <- match c with
            | LinkObject _ target =>
                print (lit " " ++ value LINK ++ lit " " ++ target ++ NEWLINE)
            | _ => print NEWLINE
            end ;;
       _ <- (if object_is_directory c
             then draw child
                    (prefix ++ (if is_last_child then lit "    " else VERTICAL ++ lit "   "))
                    is_last_child
             else pret tt) ;;
       draw_children draw n prefix (i + 1)%Z rest')%draw
  end.

(** [GraphTree.draw(item, prefix, is_last)] for an [item] that is not
    [None].  [fuel] is the depth of recursion the interpreter still
    allows; the items of [children] are never [None]. *)
Fixpoint draw_object (fuel : nat) (item : ref) (prefix : str) (is_last : bool)
    {struct fuel} : P unit :=
  match fuel with
  | O => praise RecursionError
  | S fuel' =>
      (o <- load item ;;
       match o with
       | DirectoryObject _ children =>
           draw_children (draw_object fuel') (length children) prefix 0%Z children
       | _ => pret tt
       end)%draw
  end.

(** [GraphTree(root).draw()]: [item is None], so the header line is
    printed and the root is drawn, in the one call. *)
Definition GraphTree_draw_object (fuel : nat) (root : ref) : P unit :=
  match fuel with
  | O => praise RecursionError
  | S _ =>
      (o <- load root ;;
       _ <- print (object_name o ++ lit "/" ++ NEWLINE) ;;
       draw_object fuel root [] true)%draw
  end.

(** [main] for one of [args.paths]: the item tree that is drawn, and the
    text written. *)
Definition main_one (fs : FileSystem) (fuel : nat) (root_dir : str)
    (depth : option Z) (exclude : list str) : M (Item * str) :=
  (root_dir <- lift (Directory_of_str fs root_dir) ;;
   built <- build_tree fs fuel (RootItem root_dir) depth (Some exclude) ;;
   ret (built, render built))%walk.

(** ** A file system given by its content

    Regular files, symbolic links with their raw target, and directories
    with their entries in the order the operating system lists them.  A
    directory is searchable ([Dir]) or can only be listed ([Listed]: mode
    [r--], of another user).  Path lookup follows the links the way the
    kernel does. *)

Module DiskFS.

#[warnings="-register-all"]
Inductive node :=
| Reg
| Sym (target : str)
| Dir (entries : list (str * node))
| Listed (entries : list (str * node)).

(** What a lookup gives: the node, [ENOENT] or [ENOTDIR], or [EACCES]. *)
Inductive lookup :=
| Found (n : node)
| Absent
| Denied.

Definition SLASH : char := 47%N.

Fixpoint assoc (n : str) (entries : list (str * node)) : option node :=
  match entries with
  | [] => None
  | (k, v) :: rest => if Str.eqb k n then Some v else assoc n rest
  end.

(** The node at a path none of whose components is a link. *)
Fixpoint get (disk : node) (p : Path.t) : lookup :=
  match p with
  | [] => Found disk
  | c :: p' =>
      match disk with
      | Dir entries =>
          match assoc c entries with
          | Some m => get m p'
          | None => Absent
          end
      | Listed _ => Denied
      | _ => Absent
      end
  end.

Fixpoint split_on (sep : char) (cur : str) (s : str) : list str :=
  match s with
  | [] => [cur]
  | c :: s' =>
      if (c =? sep)%N then cur :: split_on sep [] s'
      else split_on sep (cur ++ [c]) s'
  end.

Definition components (s : str) : list str := split_on SLASH [] s.

Definition is_abs (s : str) : bool :=
  match s with
  | c :: _ => (c =? SLASH)%N
  | [] => false
  end.

(** Where the resolution of some components stands: at its end, at a link
    whose target is to be walked next, or failed. *)
Inductive progress :=
| Done (q : Path.t)
| Expand (cur : Path.t) (todo : list str)
| Failed (l : lookup).

(** Resolution of the components [todo] from the directory [cur], up to
    the first link.  With [strict] a component that cannot be looked up is
    an error; without, it is kept as it is written, as [os.path.realpath]
    does. *)
Fixpoint walk_plain (strict : bool) (disk : node) (cur : Path.t)
    (todo : list str) : progress :=
  match todo with
  | [] => Done cur
  | c :: rest =>
      if Str.eqb c [] || Str.eqb c (lit ".") then
        walk_plain strict disk cur rest
      else if Str.eqb c (lit "..") then
        match get disk cur with
        | Found (Dir _) => walk_plain strict disk (removelast cur) rest
        | Found (Listed _) | Denied =>
            if strict then Failed Denied
            else walk_plain strict disk (removelast cur) rest
        | _ => if strict then Failed Absent
               else walk_plain strict disk (removelast cur) rest
        end
      else
        match get disk (cur ++ [c]) with
        | Found (Sym target) =>
            Expand (if is_abs target then [] else cur) (components target ++ rest)
        | Found _ => walk_plain strict disk (cur ++ [c]) rest
        | l => if strict then Failed l
               else walk_plain strict disk (cur ++ [c]) rest
        end
  end.

(** What a path lookup gives: the path without links, or the error. *)
Inductive resolved :=
| At (q : Path.t)
| NoEntry
| NoAccess
| Loop.

(** The whole resolution; [links] is the number of links that may still
    be followed ([ELOOP] beyond). *)
Fixpoint resolve_from (links : nat) (strict : bool) (disk : node)
    (cur : Path.t) (todo : list str) : resolved :=
  match walk_plain strict disk cur todo with
  | Done q => At q
  | Failed Denied => NoAccess
  | Failed _ => NoEntry
  | Expand cur' todo' =>
      match links with
      | O => Loop
      | S links' => resolve_from links' strict disk cur' todo'
      end
  end.

(** The kernel follows at most 40 links in one lookup. *)
Definition MAXSYMLINKS : nat := 40.

(** The outcome of a system call on a path. *)
Inductive syscall :=
| Node (n : node)
| ENOENT
| EACCES
| ELOOP.

Definition at_path (disk : node) (q : Path.t) : syscall :=
  match get disk q with
  | Found n => Node n
  | Absent => ENOENT
  | Denied => EACCES
  end.

(** [os.stat(p)]: the node reached, links followed. *)
Definition stat (disk : node) (p : Path.t) : syscall :=
  match resolve_from MAXSYMLINKS true disk [] p with
  | At q => at_path disk q
  | NoEntry => ENOENT
  | NoAccess => EACCES
  | Loop => ELOOP
  end.

(** [os.lstat(p)]: the last component is not followed. *)
Definition lstat (disk : node) (p : Path.t) : syscall :=
  match rev p with
  | [] => Node disk
  | n :: _ =>
      match resolve_from MAXSYMLINKS true disk [] (removelast p) with
      | At q => at_path disk (q ++ [n])
      | NoEntry => ENOENT
      | NoAccess => EACCES
      | Loop => ELOOP
      end
  end.

(** [pathlib] answers [False] for the errors it ignores and raises the
    others. *)
Definition ignore_error (p : Path.t) (s : syscall) (test : node -> bool)
    : result bool :=
  match s with
  | Node n => Ok (test n)
  | ENOENT | ELOOP => Ok false
  | EACCES => Raise (OSError p)
  end.

Definition S_ISDIR (n : node) : bool :=
  match n with Dir _ | Listed _ => true | _ => false end.

Definition S_ISLNK (n : node) : bool :=
  match n with Sym _ => true | _ => false end.

(** The disk as [pathlib] and [os] see it from the working directory
    [cwd].  [Path.resolve] keeps what it cannot look up and raises
    [RuntimeError] for a loop of links; a chain of more than 40 links is
    taken for a loop here. *)
Definition mount (disk : node) (cwd : Path.t) : FileSystem :=
  {| fs_resolve := fun s =>
       match resolve_from MAXSYMLINKS false disk (if is_abs s then [] else cwd)
               (components s) with
       | At q => Ok q
       | Loop => Raise RuntimeError
       | _ => Raise (OSError (components s))
       end;
     fs_iterdir := fun p =>
       match stat disk p with
       | Node (Dir entries) | Node (Listed entries) => Ok (map fst entries)
       | _ => Raise (OSError p)
       end;
     fs_is_dir := fun p => ignore_error p (stat disk p) S_ISDIR;
     fs_is_symlink := fun p => ignore_error p (lstat disk p) S_ISLNK;
     fs_readlink := fun p =>
       match lstat disk p with
       | Node (Sym target) => Ok target
       | _ => Raise (OSError p)
       end |}.

End DiskFS.

(** The disks of the examples.  [/t] holds the directory [sub] with the
    file [x.txt], and the file [y.txt]. *)
Module Examples.

Import DiskFS.

Definition disk_t : node :=
  Dir [(lit "t",
        Dir [(lit "y.txt", Reg);
             (lit "sub", Dir [(lit "x.txt", Reg)])])].

(** [/t] holds the directory [d] with the file [x], and the link [l] to [d]. *)
Definition disk_link : node :=
  Dir [(lit "t",
        Dir [(lit "l", Sym (lit "d"));
             (lit "d", Dir [(lit "x", Reg)]);
             (lit "k", Sym (lit "nowhere"))])].

(** [/t/a/b/c/f]: three levels of directories. *)
Definition disk_deep : node :=
  Dir [(lit "t",
        Dir [(lit "a", Dir [(lit "b", Dir [(lit "c", Dir [(lit "f", Reg)])]);
                            (lit "g", Reg)]);
             (lit "h", Reg)])].

(** [/t] holds the entries [b], [A] and [a1], listed in that order. *)
Definition disk_names : node :=
  Dir [(lit "t", Dir [(lit "b", Reg); (lit "A", Reg); (lit "a1", Reg)])].

(** [/t/f] is a regular file; [/nope] does not exist. *)
Definition disk_file : node :=
  Dir [(lit "t", Dir [(lit "f", Reg)])].

(** [/t] can be listed and not searched; it holds the file [f]. *)
Definition disk_listed : node :=
  Dir [(lit "t", Listed [(lit "f", Reg)])].

(** [/t] holds the directory [.git] with the file [secret], and the link
    [alias] to [.git]. *)
Definition disk_alias : node :=
  Dir [(lit "t",
        Dir [(lit ".git", Dir [(lit "secret", Reg)]);
             (lit "alias", Sym (lit ".git"))])].

(** The items that the walk of [/t] on [disk_t] makes. *)
Definition tree_t : Item :=
  Directory [lit "t"]
    [Directory [lit "t"; lit "sub"] [File [lit "t"; lit "sub"; lit "x.txt"]];
     File [lit "t"; lit "y.txt"]].

(** The text written for [tree_t]. *)
Definition text_t : str :=
  lit "t/" ++ NEWLINE
  ++ value FILE ++ lit " sub/" ++ NEWLINE
  ++ VERTICAL ++ lit "   " ++ value LAST ++ lit " x.txt" ++ NEWLINE
  ++ value LAST ++ lit " y.txt" ++ NEWLINE.

(** The objects of [tree_t], the root at the reference 0; the other
    references hold nothing of interest. *)
Definition objects_t (r : ref) : object :=
  match r with
  | 0%nat => DirectoryObject [lit "t"] [1%nat; 3%nat]
  | 1%nat => DirectoryObject [lit "t"; lit "sub"] [2%nat]
  | 2%nat => FileObject [lit "t"; lit "sub"; lit "x.txt"]
  | 3%nat => FileObject [lit "t"; lit "y.txt"]
  | _ => FileObject []
  end.

(** The items that the walk of [/t] on [disk_link] makes. *)
Definition tree_link : Item :=
  Directory [lit "t"]
    [Directory [lit "t"; lit "d"] [File [lit "t"; lit "d"; lit "x"]];
     Link [lit "t"; lit "k"] (lit "nowhere");
     Directory [lit "t"; lit "l"] [File [lit "t"; lit "l"; lit "x"]]].

End Examples.

(** * Specification vocabulary *)

(** ** Invariants of the chunks of a character set *)

Module FnmatchInv.

Import Fnmatch.
Local Open Scope N_scope.

(** Every chunk but the last holds two characters or more. *)
Fixpoint long_inner (l : list str) : Prop :=
  match l with
  | [] => True
  | c :: rest => (rest <> [] -> (2 <= length c)%nat) /\ long_inner rest
  end.

(** Between two chunks that follow each other, the last character of the
    first is not above the first character of the second: the range that
    the hyphen between them makes is not reversed. *)
Fixpoint ranges_ok (l : list str) : Prop :=
  match l with
  | [] => True
  | c :: rest =>
      match rev c, rest with
      | x :: _, (y :: _) :: _ => x <= y
      | _, _ => True
      end /\ ranges_ok rest
  end.

(** The text of the chunks behind the first one, each after its hyphen. *)
Fixpoint tail_toks (l : list str) : list class_tok :=
  match l with
  | [] => []
  | d :: rest => CDash :: map CLit d ++ tail_toks rest
  end.

Definition nonempty (c : str) : Prop := c <> [].

(** [re.compile] accepts the piece. *)
Definition compiles (p : re_piece) : Prop := exists m, compile_piece p = Ok m.

(** A character that is none of [*], [?] and []]. *)
Definition plain (c : char) : Prop :=
  c <> STAR_c /\ c <> QMARK_c /\ c <> RBRACKET_c.

End FnmatchInv.

(** ** The walker *)

(** The answer of [skip_condition]. *)
Definition skipped (self : Tree) (item : Path.t) : bool :=
  match skip_condition self item with
  | Ok b => b
  | Raise _ => false
  end.

(** Every item strictly below [self], parents before their children. *)
Fixpoint items_below (self : Item) : list Item :=
  match self with
  | Directory _ children =>
      (fix each (l : list Item) : list Item :=
         match l with
         | [] => []
         | c :: l' => c :: items_below c ++ each l'
         end) children
  | _ => []
  end.

(** [q] lies at or below [p], and no component of it below [p] is excluded. *)
Definition reach (self : Tree) (p q : Path.t) : Prop :=
  exists rel, q = p ++ rel /\ Forall (fun n => skipped self [n] = false) rel.

(** The entries of [p] that the walker keeps, in the order it meets them. *)
Definition kept_entries (self : Tree) (p : Path.t) (names : list str) : list Path.t :=
  filter (fun q => negb (skipped self q)) (sorted (map (Path.child p) names)).

(** What the walker makes of an entry met at depth [d]. *)
Fixpoint built (fs : FileSystem) (self : Tree) (d : Z) (it : Item) {struct it} : Prop :=
  skipped self (item_path it) = false /\
  match it with
  | File e => fs_is_dir fs e = Ok false /\ fs_is_symlink fs e = Ok false
  | Link e t =>
      fs_is_dir fs e = Ok false /\ fs_is_symlink fs e = Ok true /\
      fs_readlink fs e = Ok t
  | Directory e cs =>
      fs_is_dir fs e = Ok true /\
      if break_condition self d then
        exists names, fs_iterdir fs e = Ok names
          /\ map item_path cs = kept_entries self e names
          /\ (fix all (l : list Item) : Prop :=
                match l with
                | [] => True
                | c :: l' => built fs self (d + 1) c /\ all l'
                end) cs
      else cs = []
  end.

(** An entry of which no query of [process_item] raises: [is_dir]
    answers, and for what is not a directory [is_symlink] answers, and for
    a link [os.readlink] does. *)
Definition examinable (fs : FileSystem) (entry : Path.t) : bool :=
  match fs_is_dir fs entry with
  | Ok true => true
  | Ok false =>
      match fs_is_symlink fs entry with
      | Ok true => match fs_readlink fs entry with Ok _ => true | Raise _ => false end
      | Ok false => true
      | Raise _ => false
      end
  | Raise _ => false
  end.

(** ** The objects and the items *)

(** The items behind the references [rs], when [read] gives one for each. *)
Fixpoint read_all (read : ref -> option Item) (rs : list ref) : option (list Item) :=
  match rs with
  | [] => Some []
  | r :: rs' =>
      match read r, read_all read rs' with
      | Some c, Some cs => Some (c :: cs)
      | _, _ => None
      end
  end.

(** The item tree that the objects hold at a reference, when it is a tree
    of at most [n] levels. *)
Fixpoint read_item (n : nat) (h : ref -> object) (r : ref) : option Item :=
  match n with
  | O => None
  | S n' =>
      match h r with
      | FileObject p => Some (File p)
      | LinkObject p t => Some (Link p t)
      | DirectoryObject p rs => option_map (Directory p) (read_all (read_item n' h) rs)
      end
  end.

(** A program that reads the objects and writes text: from every store
    with the same objects it has the same outcome, leaves the objects as
    they are and appends the same text. *)
Definition writes_only {A} (m : P A) : Prop :=
  forall h, exists res text, forall w,
    m {| objects := h; written := w |}
    = (res, {| objects := h; written := w ++ text |}).

(** ** The renderer, by the position of a child among its siblings *)

Definition display_name (child : Item) : str :=
  if is_directory child then item_name child ++ lit "/" else item_name child.

Definition annotation (child : Item) : str :=
  match child with
  | Link _ target => lit " -> " ++ target
  | _ => []
  end.

Definition is_nil {A} (l : list A) : bool :=
  match l with [] => true | _ => false end.

(** The connector of a child that has the siblings [later] after it. *)
Definition connector_for (later : list Item) : str :=
  if is_nil later then value LAST else value FILE.

Definition extension_for (later : list Item) : str :=
  if is_nil later then lit "    " else VERTICAL ++ lit "   ".

Fixpoint render_children (prefix : str) (children : list Item) : str :=
  match children with
  | [] => []
  | child :: later =>
      (prefix ++ connector_for later ++ lit " " ++ display_name child
         ++ annotation child ++ NEWLINE)
      ++ draw child (prefix ++ extension_for later) (is_nil later)
      ++ render_children prefix later
  end.

(** Does [needle] occur in [text]? *)
Fixpoint starts_with (needle text : str) : bool :=
  match needle, text with
  | [], _ => true
  | _ :: _, [] => false
  | a :: needle', b :: text' => (a =? b)%N && starts_with needle' text'
  end.

Fixpoint occurs (needle text : str) : bool :=
  starts_with needle text ||
  match text with
  | [] => false
  | _ :: text' => occurs needle text'
  end.

(** * The rest of tree.py *)

(** ** Item.type and the two __repr__ *)

(** [class ItemType(Enum)] *)
Module ItemType.

Inductive t := FILE | LINK | DIRECTORY.

Definition value (e : t) : str :=
  match e with
  | FILE => lit "file"
  | LINK => lit "link"
  | DIRECTORY => lit "directory"
  end.

End ItemType.

(** The property [Item.type]. *)
Definition Item_type (self : Item) : result ItemType.t :=
  if is_file self then Ok ItemType.FILE
  else if is_link self then Ok ItemType.LINK
  else if is_directory self then Ok ItemType.DIRECTORY
  else Raise (ValueError (lit "Unknown item type")).

(** [str.capitalize], for text whose letters are ASCII letters, as the
    values of [ItemType] are: the first character in upper case, the
    others in lower case. *)
Definition upper (c : char) : char :=
  if ((97 <=? c) && (c <=? 122))%N then (c - 32)%N else c.
Definition lower (c : char) : char :=
  if ((65 <=? c) && (c <=? 90))%N then (c + 32)%N else c.
Definition capitalize (s : str) : str :=
  match s with
  | [] => []
  | c :: s' => upper c :: map lower s'
  end.

(** [str(path)] of an absolute path. *)
Definition path_str (p : Path.t) : str :=
  match p with
  | [] => lit "/"
  | _ :: _ => flat_map (fun c => lit "/" ++ c) p
  end.

(** [str(n)] of a natural number: its decimal digits. *)
Fixpoint digits (u : Decimal.uint) : str :=
  match u with
  | Decimal.Nil => []
  | Decimal.D0 u => 48%N :: digits u
  | Decimal.D1 u => 49%N :: digits u
  | Decimal.D2 u => 50%N :: digits u
  | Decimal.D3 u => 51%N :: digits u
  | Decimal.D4 u => 52%N :: digits u
  | Decimal.D5 u => 53%N :: digits u
  | Decimal.D6 u => 54%N :: digits u
  | Decimal.D7 u => 55%N :: digits u
  | Decimal.D8 u => 56%N :: digits u
  | Decimal.D9 u => 57%N :: digits u
  end.
Definition str_of_nat (n : nat) : str := digits (Nat.to_uint n).

Definition QUOTE : str := [34%N].

(** [Item.__str__] *)
Definition Item_str (self : Item) : str := item_name self.

(** [Item.__repr__] *)
Definition Item_repr (self : Item) : result str :=
  (type <-- Item_type self ;;
   let base_repr :=
     capitalize (ItemType.value type) ++ lit "(name=" ++ QUOTE ++ item_name self
       ++ QUOTE ++ lit ", path=" ++ QUOTE ++ path_str (item_path self) ++ QUOTE in
   match self with
   | Link _ target =>
       Ok (base_repr ++ lit ", target=" ++ QUOTE ++ target ++ QUOTE ++ lit ")")
   | Directory _ children =>
       Ok (base_repr ++ lit ", children=" ++ str_of_nat (length children) ++ lit ")")
   | File _ => Ok (base_repr ++ lit ")")
   end)%result.

(** [Link.__repr__], which overrides it. *)
Definition Link_repr (path : Path.t) (target : str) : str :=
  lit "Link(name=" ++ QUOTE ++ Path.name path ++ QUOTE
    ++ lit ", path=" ++ QUOTE ++ path_str path ++ QUOTE
    ++ lit ", target=" ++ QUOTE ++ target ++ QUOTE ++ lit ")".

(** [repr(item)]: the method of the class of the item. *)
Definition repr (self : Item) : result str :=
  match self with
  | Link path target => Ok (Link_repr path target)
  | _ => Item_repr self
  end.

(** ** get_args and main *)

(** The namespace that [parser.parse_args()] returns. *)
Record Args := {
  args_depth : option Z;
  args_paths : list str;
  args_exclude : list str
}.

(** The lines of [get_args] after [parse_args]; [cwd] is [os.getcwd()]. *)
Definition get_args (parsed : Args) (cwd : str) : Args :=
  let paths :=
    if is_nil (args_paths parsed) then args_paths parsed ++ [cwd]
    else args_paths parsed in
  let exclude :=
    if is_nil (args_exclude parsed)
    then args_exclude parsed ++ [lit "__pycache__"; lit "*venv*"; lit ".git"]
    else args_exclude parsed in
  {| args_depth := args_depth parsed; args_paths := paths; args_exclude := exclude |}.

(** The loop of [main] over [args.paths].  The state is the trace of the
    queries and the text written so far; an exception ends the loop and
    leaves both as they are at that point. *)
Fixpoint main_loop (fs : FileSystem) (fuel : nat) (paths : list str)
    (depth : option Z) (exclude : list str) (tr : trace) (out : str)
  : result unit * trace * str :=
  match paths with
  | [] => (Ok tt, tr, out)
  | root_dir :: rest =>
      match main_one fs fuel root_dir depth exclude tr with
      | (Ok (_, text), tr') => main_loop fs fuel rest depth exclude tr' (out ++ text)
      | (Raise e, tr') => (Raise e, tr', out)
      end
  end.

(** [main(args)] *)
Definition main (fs : FileSystem) (fuel : nat) (args : Args)
  : result unit * trace * str :=
  main_loop fs fuel (args_paths args) (args_depth args) (args_exclude args) [] [].

(** ** Vocabulary of the further properties *)

(** The number of levels of items below [self]. *)
Fixpoint height (self : Item) : nat :=
  match self with
  | Directory _ children =>
      (fix tallest (l : list Item) : nat :=
         match l with
         | [] => O
         | c :: l' => Nat.max (S (height c)) (tallest l')
         end) children
  | _ => O
  end.

(** The lines below the header, without the prefix of the call and without
    their newline: a child, then the lines of what it holds behind the
    extension of the child, then the later siblings. *)
Fixpoint rows (self : Item) : list str :=
  match self with
  | Directory _ children =>
      (fix each (l : list Item) : list str :=
         match l with
         | [] => []
         | child :: later =>
             (connector_for later ++ lit " " ++ display_name child ++ annotation child)
             :: map (app (extension_for later)) (rows child) ++ each later
         end) children
  | _ => []
  end.

(** A line, without the prefix of the call and its newline, that shows the
    item [x]: an indentation whose length is a multiple of four, one of
    the two connectors, a space, the display name of the item and, for a
    link, its target. *)
Definition shows (x : Item) (line : str) : Prop :=
  exists indent connector k,
    line = indent ++ connector ++ lit " " ++ display_name x ++ annotation x
    /\ (connector = value LAST \/ connector = value FILE)
    /\ length indent = (4 * k)%nat.

(** A query that the answers of the file system justify: a listing of the
    root [p] or of a path that [is_dir] accepts, [is_symlink] of a path that
    [is_dir] refuses, [readlink] of a path that [is_symlink] accepts. *)
Definition justified (fs : FileSystem) (p : Path.t) (e : event) : Prop :=
  match e with
  | EvIterdir q => q = p \/ fs_is_dir fs q = Ok true
  | EvIsDir _ => True
  | EvIsSymlink q => fs_is_dir fs q = Ok false
  | EvReadlink q => fs_is_dir fs q = Ok false /\ fs_is_symlink fs q = Ok true
  end.

(** What [main] does for one of [args.paths] before it draws:
    [Directory(root_dir)], [Tree(...)] and [tree.traverse_tree(tree.root)]. *)
Definition main_build (fs : FileSystem) (fuel : nat) (root_dir : str)
    (depth : option Z) (exclude : list str) : M Item :=
  (root_dir <- lift (Directory_of_str fs root_dir) ;;
   build_tree fs fuel (RootItem root_dir) depth (Some exclude))%walk.

(** An exception that a query of the walk of [p] raised for the path [q]:
    a listing of the root or of a path that [is_dir] accepts, [is_dir],
    [is_symlink] of a path that [is_dir] refuses, or [os.readlink] of a
    path that [is_symlink] accepts. *)
Definition raised_by (fs : FileSystem) (p q : Path.t) (e : exn) : Prop :=
  ((q = p \/ fs_is_dir fs q = Ok true) /\ fs_iterdir fs q = Raise e)
  \/ fs_is_dir fs q = Raise e
  \/ (fs_is_dir fs q = Ok false /\ fs_is_symlink fs q = Raise e)
  \/ (fs_is_dir fs q = Ok false /\ fs_is_symlink fs q = Ok true
      /\ fs_readlink fs q = Raise e).

(** A computation that does not read the trace: its outcome is the same
    from every trace, and it appends the same queries. *)
Definition oblivious {A} (m : M A) : Prop :=
  forall tr, m tr = (fst (m []), tr ++ snd (m [])).

(** The disk of the examples of [main]: [/a] holds [x], [/b] holds [y]. *)
Definition disk_two : DiskFS.node :=
  DiskFS.Dir [(lit "a", DiskFS.Dir [(lit "x", DiskFS.Reg)]);
              (lit "b", DiskFS.Dir [(lit "y", DiskFS.Reg)])].

(** A directory that holds itself through the link [again -> .]. *)
Definition disk_loop : DiskFS.node :=
  DiskFS.Dir [(lit "t", DiskFS.Dir [(lit "again", DiskFS.Sym (lit "."))])].

(** * Facts about fnmatch *)

Module FnmatchFacts.

Import Fnmatch FnmatchInv.
Local Open Scope N_scope.

Lemma join_chunks_cons c T : join_chunks (c :: T) = map CLit c ++ tail_toks T.
Proof.
  revert c. induction T as [|d T IH]; intros c; simpl.
  - now rewrite app_nil_r.
  - f_equal. f_equal. apply (IH d).
Qed.

Lemma split_chunks_shape s : forall skip cur chunks chunk,
  split_chunks skip cur s = (chunks, chunk) ->
  exists c0 T, chunks ++ [chunk] = c0 :: T
    /\ (length cur + Nat.min skip (length s) <= length c0)%nat
    /\ (T <> [] -> (length cur + skip <= length c0)%nat)
    /\ long_inner T.
Proof.
  induction s as [|c s IH]; intros skip cur chunks chunk H; simpl in H.
  - inversion H; subst. exists chunk, []. simpl. repeat split; try lia. congruence.
  - destruct skip as [|n].
    + destruct (c =? HYPHEN_c).
      * destruct (split_chunks 2 [] s) as [chunks' chunk'] eqn:E.
        inversion H; subst. apply IH in E. destruct E as (c1 & T & E1 & E2 & E3 & E4).
        exists cur, (chunks' ++ [chunk]). simpl. repeat split; try lia.
        rewrite E1. simpl. split; auto.
      * apply IH in H. destruct H as (c0 & T & E1 & E2 & E3 & E4).
        exists c0, T. rewrite length_app in *. simpl in *.
        repeat split; auto; try lia; try (intros HT; specialize (E3 HT); lia).
    + apply IH in H. destruct H as (c0 & T & E1 & E2 & E3 & E4).
      exists c0, T. rewrite length_app in *. simpl in *.
      repeat split; auto; try lia; try (intros HT; specialize (E3 HT); lia).
Qed.

Lemma long_inner_app_last T c :
  long_inner (T ++ [c]) -> Forall (fun d => (2 <= length d)%nat) T.
Proof.
  induction T as [|d T IH]; simpl; intros H; constructor.
  - destruct H as [H _]. apply H. destruct T; discriminate.
  - apply IH. apply H.
Qed.

Lemma long_inner_of_Forall T :
  Forall (fun d => (2 <= length d)%nat) T -> long_inner T.
Proof.
  induction 1; simpl; auto.
Qed.

Lemma long_inner_nonempty T c :
  long_inner (T ++ [c]) -> c <> [] -> Forall nonempty (T ++ [c]).
Proof.
  intros H Hc. apply Forall_app. split.
  - apply long_inner_app_last in H. eapply Forall_impl; [|exact H].
    intros d Hd E. subst d. simpl in Hd. lia.
  - constructor; auto.
Qed.

(** After [close_chunks]: a first chunk that is not empty, and behind it
    chunks that are not empty and, but for the last, hold two characters. *)
Lemma close_chunks_shape chunks chunk c0 T :
  chunks ++ [chunk] = c0 :: T ->
  (1 <= length c0)%nat ->
  long_inner T ->
  exists d0 T', close_chunks chunks chunk = Ok (d0 :: T')
    /\ (1 <= length d0)%nat /\ Forall nonempty T' /\ long_inner T'.
Proof.
  intros E H0 HT. unfold close_chunks. destruct chunk as [|x chunk].
  - destruct (exists_last (l := chunks)) as (B & l & EB).
    { intros ->. simpl in E. inversion E; subst. simpl in H0. lia. }
    subst chunks. rewrite rev_unit, rev_involutive.
    destruct B as [|b0 B]; simpl in E; inversion E; subst c0 T; clear E.
    + exists (l ++ [HYPHEN_c]), []. rewrite length_app. simpl.
      repeat split; auto; lia.
    + exists b0, (B ++ [l ++ [HYPHEN_c]]). split; auto. split; auto.
      apply long_inner_app_last in HT.
      apply Forall_app in HT. destruct HT as [HB Hl]. inversion Hl; subst.
      assert (HF' : Forall (fun d => (2 <= length d)%nat) (B ++ [l ++ [HYPHEN_c]])).
      { apply Forall_app. split; auto. constructor; auto.
        rewrite length_app. simpl. lia. }
      split.
      * eapply Forall_impl; [|exact HF']. intros d Hd Ed. subst d. simpl in Hd. lia.
      * now apply long_inner_of_Forall.
  - exists c0, T. split; [f_equal; exact E|]. repeat split; auto.
    destruct chunks as [|c chunks]; simpl in E; inversion E; subst.
    + constructor.
    + apply long_inner_nonempty; auto. discriminate.
Qed.

Lemma rev_head_last (c : str) x r : rev c = x :: r -> c = rev r ++ [x].
Proof.
  intros H. apply (f_equal (@rev _)) in H. now rewrite rev_involutive in H.
Qed.

Lemma rev_nonempty (c : str) : c <> [] -> exists x r, rev c = x :: r.
Proof.
  intros H. destruct (rev c) as [|x r] eqn:E.
  - apply (f_equal (@rev _)) in E. rewrite rev_involutive in E. contradiction.
  - eauto.
Qed.

(** The chunks behind the first one. *)
Lemma remove_empty_ranges_inner T :
  Forall nonempty T -> long_inner T ->
  exists T', remove_empty_ranges T = Ok T'
    /\ Forall nonempty T' /\ long_inner T' /\ ranges_ok T'.
Proof.
  induction T as [|c T IH]; intros HN HL.
  - exists []. simpl. auto.
  - inversion HN as [|? ? Hc HN']; subst. destruct HL as [Hlen HL].
    destruct (IH HN' HL) as (T' & E & N' & L' & R').
    simpl. rewrite E. simpl.
    destruct T' as [|d more].
    + exists [c]. simpl. split; [reflexivity|]. split; [constructor; auto|].
      split; [split; [congruence|exact I]|]. split; [|exact I].
      destruct (rev c); exact I.
    + destruct (rev_nonempty Hc) as (x & r & Ex). rewrite Ex.
      inversion N' as [|? ? Hd Nmore]; subst.
      destruct d as [|y d']; [contradiction|].
      destruct (y <? x) eqn:Cmp.
      * assert (HT : T <> []) by (intros ->; simpl in E; discriminate).
        specialize (Hlen HT).
        assert (Hr : r <> []).
        { apply rev_head_last in Ex. subst c. rewrite length_app, length_rev in Hlen.
          simpl in Hlen. intros ->. simpl in Hlen. lia. }
        assert (Erl : removelast c = rev r).
        { apply rev_head_last in Ex. subst c. now rewrite removelast_last. }
        simpl tl. rewrite Erl.
        eexists. split; [reflexivity|]. split; [|split].
        -- constructor; auto. intros Habs. apply app_eq_nil in Habs.
           destruct Habs as [Habs _]. apply (f_equal (@rev _)) in Habs.
           rewrite rev_involutive in Habs. contradiction.
        -- simpl. split; [|apply L'].
           intros Hm. destruct L' as [Ld _]. specialize (Ld Hm). simpl in Ld.
           rewrite length_app, length_rev. destruct r; [contradiction|]. simpl. lia.
        -- simpl. split; [|apply R'].
           destruct more as [|[|z m'] more']; try (destruct (rev (rev r ++ d')); exact I).
           destruct L' as [Ld _]. assert (Hm : (z :: m') :: more' <> []) by discriminate.
           specialize (Ld Hm). simpl in Ld. destruct d' as [|y' d'']; [simpl in Ld; lia|].
           destruct R' as [Rd _]. simpl in Rd.
           rewrite rev_app_distr.
           destruct (rev (y' :: d'')) as [|w ws] eqn:Ew.
           { apply (f_equal (@rev _)) in Ew. rewrite rev_involutive in Ew. discriminate. }
           simpl. simpl in Ew. rewrite Ew in Rd. simpl in Rd. exact Rd.
      * eexists. split; [reflexivity|]. split; [|split].
        -- constructor; auto.
        -- split; [|exact L']. intros _. apply Hlen. intros ->. simpl in E. discriminate.
        -- simpl. rewrite Ex. split; [|apply R'].
           apply N.ltb_ge in Cmp. exact Cmp.
Qed.
Lemma remove_empty_ranges_head c0 T :
  c0 <> [] -> Forall nonempty T -> long_inner T ->
  exists h T', remove_empty_ranges (c0 :: T) = Ok (h :: T')
    /\ Forall nonempty T' /\ long_inner T' /\ ranges_ok (h :: T').
Proof.
  intros Hc HN HL.
  destruct (remove_empty_ranges_inner HN HL) as (T' & E & N' & L' & R').
  simpl. rewrite E. simpl. destruct T' as [|d more].
  - exists c0, []. simpl. repeat split; auto. destruct (rev c0); exact I.
  - destruct (rev_nonempty Hc) as (x & r & Ex). rewrite Ex.
    inversion N' as [|? ? Hd Nmore]; subst.
    destruct d as [|y d']; [contradiction|].
    destruct L' as [Ld Lmore].
    destruct (y <? x) eqn:Cmp.
    + eexists _, _. split; [reflexivity|]. split; [auto|]. split; [auto|].
      split; [|apply R'].
      destruct more as [|[|z m'] more']; try (destruct (rev (removelast c0 ++ tl (y :: d'))); exact I).
      assert (Hm : (z :: m') :: more' <> []) by discriminate.
      specialize (Ld Hm). simpl in Ld. destruct d' as [|y' d'']; [simpl in Ld; lia|].
      destruct R' as [Rd _]. simpl tl. rewrite rev_app_distr.
      destruct (rev (y' :: d'')) as [|w ws] eqn:Ew.
      { apply (f_equal (@rev _)) in Ew. rewrite rev_involutive in Ew. discriminate. }
      simpl. simpl in Ew. simpl in Rd. rewrite Ew in Rd. simpl in Rd. exact Rd.
    + eexists _, _. split; [reflexivity|]. split; [|split]; auto.
      * split; auto.
      * simpl. rewrite Ex. split; [|apply R']. apply N.ltb_ge in Cmp. exact Cmp.
Qed.

Lemma ranges_ok_tl x h T : ranges_ok ((x :: h) :: T) -> ranges_ok (h :: T).
Proof.
  simpl. intros [H R]. split; auto.
  destruct h as [|x' h']; [exact I|].
  destruct (rev (x' :: h')) as [|w ws] eqn:Ew.
  { exact I. }
  simpl in H. exact H.
Qed.

Lemma parse_set_chunks T :
  Forall nonempty T -> long_inner T ->
  forall c, ranges_ok (c :: T) ->
  exists items, parse_set (map CLit c ++ tail_toks T) = Ok items.
Proof.
  induction T as [|d T IH]; intros HN HL c.
  - intros _. simpl. rewrite app_nil_r. induction c as [|x c IHc].
    + simpl. eauto.
    + destruct IHc as (items & E). destruct c as [|x' c'].
      * simpl. eauto.
      * change (map CLit (x :: x' :: c')) with (CLit x :: map CLit (x' :: c')).
        change (map CLit (x' :: c')) with (CLit x' :: map CLit c') in *.
        simpl. simpl in E. rewrite E. simpl. eauto.
  - inversion HN as [|? ? Hd HN']; subst. destruct HL as [Hlen HL].
    destruct d as [|y d']; [contradiction|].
    induction c as [|x c IHc]; intros R.
    + destruct R as [_ R]. destruct (IH HN' HL _ R) as (items & E).
      simpl in E. simpl. rewrite E. simpl. eauto.
    + destruct c as [|x' c'].
      * assert (R' : ranges_ok (d' :: T)).
        { destruct R as [_ R]. now apply ranges_ok_tl in R. }
        destruct (IH HN' HL _ R') as (items & E).
        destruct R as [Rxy _]. simpl in Rxy.
        simpl. apply N.ltb_ge in Rxy. rewrite Rxy.
        destruct (map CLit d' ++ tail_toks T) eqn:Etext.
        -- simpl. eauto.
        -- rewrite E. simpl. eauto.
      * apply ranges_ok_tl in R. destruct (IHc R) as (items & E).
        simpl in E. simpl. rewrite E. simpl. eauto.
Qed.

Lemma set_piece_compiles h T :
  Forall nonempty T -> long_inner T -> ranges_ok (h :: T) ->
  compiles (set_piece (map CLit h ++ tail_toks T)).
Proof.
  intros HN HL R. unfold compiles, set_piece.
  destruct h as [|x h].
  - simpl app. destruct (tail_toks T) as [|t text] eqn:Et.
    + simpl. eauto.
    + destruct T as [|d T']; [discriminate|]. simpl in Et. inversion Et; subst.
      cbn [is_bang].
      destruct (@parse_set_chunks _ HN HL [] R) as (items & E).
      simpl map in E. simpl app in E. cbn [tail_toks] in E.
      unfold compile_piece. rewrite E. simpl. eauto.
  - simpl app. cbn [is_bang]. destruct (x =? BANG_c) eqn:Hb.
    + destruct (@parse_set_chunks _ HN HL h (ranges_ok_tl R)) as (items & E).
      destruct (map CLit h ++ tail_toks T).
      * simpl. eauto.
      * unfold compile_piece. rewrite E. simpl. eauto.
    + destruct (@parse_set_chunks _ HN HL (x :: h) R) as (items & E).
      simpl map in E. simpl app in E.
      unfold compile_piece. rewrite E. simpl. eauto.
Qed.

Lemma set_text_compiles stuff :
  exists text, set_text stuff = Ok text /\ compiles (set_piece text).
Proof.
  unfold set_text. destruct (existsb (N.eqb HYPHEN_c) stuff) eqn:Hy; simpl.
  - destruct (split_chunks (if char_at stuff 0 BANG_c then 2 else 1) [] stuff)
      as [chunks chunk] eqn:Es.
    apply split_chunks_shape in Es. destruct Es as (c0 & T & E1 & E2 & _ & E4).
    assert (Hlen : (1 <= length c0)%nat).
    { destruct stuff as [|a stuff]; [discriminate|].
      simpl in E2. destruct (char_at (a :: stuff) 0 BANG_c); simpl in E2; lia. }
    destruct (close_chunks_shape _ _ E1 Hlen E4) as (d0 & T' & Ec & Hd0 & HN & HL).
    rewrite Ec. cbn [rbind].
    assert (Hne : d0 <> []) by (intros ->; simpl in Hd0; lia).
    destruct (remove_empty_ranges_head Hne HN HL) as (h & T'' & Er & HN' & HL' & R).
    eexists. split; [unfold str in *; rewrite Er; reflexivity|].
    rewrite join_chunks_cons. now apply set_piece_compiles.
  - eexists. split; [reflexivity|].
    assert (H := @set_piece_compiles stuff [] (Forall_nil _) I).
    simpl in H. rewrite app_nil_r in H. apply H. split; auto. destruct (rev stuff); exact I.
Qed.

Lemma translate_loop_compiles pat : forall skip res,
  Forall compiles res ->
  exists res', translate_loop pat skip res = Ok res' /\ Forall compiles res'.
Proof.
  assert (Hsnoc : forall res p, Forall compiles res -> compiles p -> Forall compiles (res ++ [p])).
  { intros. apply Forall_app. split; auto. }
  assert (Hlit : forall c, compiles (Literal c)) by (intros; eexists; reflexivity).
  induction pat as [|c pat IH]; intros skip res Hres; simpl.
  - eauto.
  - destruct skip as [|k]; [|now apply IH].
    destruct (c =? STAR_c).
    { apply IH. destruct (ends_with_STAR res); auto.
      apply Hsnoc; auto. eexists; reflexivity. }
    destruct (c =? QMARK_c).
    { apply IH. apply Hsnoc; auto. eexists; reflexivity. }
    destruct (c =? LBRACKET_c); [|apply IH; auto].
    destruct (close_index pat) as [j|]; [|apply IH; auto].
    destruct (set_text_compiles (firstn j pat)) as (text & Et & Hc).
    rewrite Et. simpl. apply IH. auto.
Qed.

Lemma re_compile_total res :
  Forall compiles res -> exists ms, re_compile res = Ok ms.
Proof.
  induction 1 as [|p res (m & Hm) _ (ms & Hms)]; simpl.
  - eauto.
  - rewrite Hm, Hms. simpl. eauto.
Qed.

Lemma fnmatch_total name pat : exists b, fnmatch name pat = Ok b.
Proof.
  unfold fnmatch, translate.
  destruct (@translate_loop_compiles pat O [] (Forall_nil _)) as (res & E & H).
  rewrite E. simpl. destruct (re_compile_total H) as (ms & Ems).
  rewrite Ems. simpl. eauto.
Qed.
(** *** Patterns that hold no [*], [?] or []] *)

Lemma find_absent c s : Forall (fun x => x <> c) s -> forall k, find c s k = None.
Proof.
  induction 1 as [|x s Hx _ IH]; intros k; simpl.
  - reflexivity.
  - destruct k.
    + apply N.eqb_neq in Hx. rewrite Hx. now rewrite IH.
    + now rewrite IH.
Qed.

Lemma close_index_absent s : Forall plain s -> close_index s = None.
Proof.
  intros H. unfold close_index. apply find_absent.
  eapply Forall_impl; [|exact H]. intros x (_ & _ & Hx). exact Hx.
Qed.

Lemma translate_loop_plain pat : Forall plain pat ->
  forall res, translate_loop pat O res = Ok (res ++ map Literal pat).
Proof.
  induction 1 as [|c pat (Hs & Hq & Hr) Hpat IH]; intros res; simpl.
  - now rewrite app_nil_r.
  - apply N.eqb_neq in Hs, Hq. rewrite Hs, Hq.
    destruct (c =? LBRACKET_c) eqn:Hb.
    + apply N.eqb_eq in Hb. subst c. rewrite (close_index_absent Hpat).
      rewrite IH. now rewrite <- app_assoc.
    + rewrite IH. now rewrite <- app_assoc.
Qed.

Lemma re_compile_literals pat : re_compile (map Literal pat) = Ok (map MChar pat).
Proof.
  induction pat as [|c pat IH]; simpl.
  - reflexivity.
  - rewrite IH. reflexivity.
Qed.

Lemma eqb_cons x a y b : Str.eqb (x :: a) (y :: b) = (x =? y) && Str.eqb a b.
Proof.
  unfold Str.eqb.
  destruct (list_eq_dec N.eq_dec (x :: a) (y :: b)) as [E|E];
    destruct (list_eq_dec N.eq_dec a b) as [E'|E'];
    destruct (x =? y) eqn:Exy; simpl; try reflexivity.
  - inversion E; subst. rewrite N.eqb_refl in Exy. discriminate.
  - inversion E; subst. contradiction.
  - inversion E; subst. contradiction.
  - apply N.eqb_eq in Exy. subst. contradiction.
Qed.

Lemma re_match_literals pat : forall name,
  re_match (map MChar pat) name = Str.eqb name pat.
Proof.
  induction pat as [|c pat IH]; intros [|x name]; simpl; try reflexivity.
  rewrite IH, eqb_cons. reflexivity.
Qed.

Lemma fnmatch_plain name pat :
  Forall plain pat -> fnmatch name pat = Ok (Str.eqb name pat).
Proof.
  intros H. unfold fnmatch, translate. rewrite (translate_loop_plain H). simpl.
  rewrite re_compile_literals. simpl. now rewrite re_match_literals.
Qed.

End FnmatchFacts.

(** * Facts about comparison and [sorted] *)

Section Lex.

Variable A : Type.
Variable cmp : A -> A -> comparison.
Hypothesis cmp_refl : forall x, cmp x x = Eq.
Hypothesis cmp_eq : forall x y, cmp x y = Eq -> x = y.
Hypothesis cmp_antisym : forall x y, cmp y x = CompOpp (cmp x y).
Hypothesis cmp_trans : forall x y z, cmp x y = Lt -> cmp y z = Lt -> cmp x z = Lt.







End Lex.









Lemma name_child p n : Path.name (Path.child p n) = n.
Proof. unfold Path.name, Path.child. apply last_last. Qed.

Lemma insert_In x l e : In e (insert x l) <-> e = x \/ In e l.
Proof.
  induction l as [|y l IH]; simpl.
  - intuition.
  - destruct (Path.ltb y x); simpl; rewrite ?IH; intuition.
Qed.

Lemma sorted_In l e : In e (sorted l) <-> In e l.
Proof.
  induction l as [|x l IH]; simpl.
  - tauto.
  - rewrite insert_In, IH. intuition.
Qed.






Lemma kept_entries_In self p names q :
  In q (kept_entries self p names) <->
  (exists n, In n names /\ q = Path.child p n) /\ skipped self q = false.
Proof.
  unfold kept_entries. rewrite filter_In, sorted_In, in_map_iff.
  split.
  - intros ((n & <- & Hn) & Hs). split; eauto. now destruct (skipped self _).
  - intros ((n & Hn & ->) & Hs). split; eauto. now rewrite Hs.
Qed.

(** * Facts about the walker *)

Lemma Item_nested_ind (P : Item -> Prop) :
  (forall p, P (File p)) ->
  (forall p t, P (Link p t)) ->
  (forall p cs, Forall P cs -> P (Directory p cs)) ->
  forall it, P it.
Proof.
  intros HF HL HD. fix IH 1. intros [p|p t|p cs].
  - apply HF.
  - apply HL.
  - apply HD. induction cs as [|c cs IHcs]; constructor; auto.
Qed.

Lemma skip_loop_total patterns item : exists b, skip_loop patterns item = Ok b.
Proof.
  induction patterns as [|pattern rest IH]; simpl.
  - eauto.
  - destruct (FnmatchFacts.fnmatch_total (Path.name item) pattern) as (b & E).
    rewrite E. simpl. destruct b; eauto.
Qed.

Lemma skip_condition_ok self item :
  skip_condition self item = Ok (skipped self item).
Proof.
  unfold skipped. destruct (skip_loop_total (exclude self) item) as (b & E).
  unfold skip_condition. now rewrite E.
Qed.

Lemma skip_loop_name patterns p q :
  Path.name p = Path.name q -> skip_loop patterns p = skip_loop patterns q.
Proof.
  intros E. induction patterns as [|pattern rest IH]; simpl.
  - reflexivity.
  - now rewrite E, IH.
Qed.

Lemma skipped_name self p q :
  Path.name p = Path.name q -> skipped self p = skipped self q.
Proof.
  intros E. unfold skipped, skip_condition. now rewrite (skip_loop_name _ _ _ E).
Qed.

Lemma skipped_child self p n : skipped self (Path.child p n) = skipped self [n].
Proof. apply skipped_name. now rewrite name_child. Qed.

Lemma skip_loop_true patterns item :
  skip_loop patterns item = Ok true <->
  exists pattern, In pattern patterns
    /\ Fnmatch.fnmatch (Path.name item) pattern = Ok true.
Proof.
  induction patterns as [|pattern rest IH]; simpl.
  - split; [discriminate|]. intros (? & [] & _).
  - destruct (FnmatchFacts.fnmatch_total (Path.name item) pattern) as (b & E).
    rewrite E. simpl. destruct b.
    + split; auto. intros _. exists pattern. auto.
    + rewrite IH. split.
      * intros (q & Hq & Eq). eauto.
      * intros (q & [<-|Hq] & Eq); [congruence|eauto].
Qed.

Lemma built_all fs self d cs :
  (fix all (l : list Item) : Prop :=
     match l with
     | [] => True
     | c :: l' => built fs self d c /\ all l'
     end) cs <-> Forall (built fs self d) cs.
Proof.
  induction cs as [|c cs IH].
  - split; auto.
  - split.
    + intros [H1 H2]. constructor; auto. now apply IH.
    + intros H. inversion H; subst. split; auto. now apply IH.
Qed.

Lemma reach_refl self p : reach self p p.
Proof. exists []. split; auto. now rewrite app_nil_r. Qed.

Lemma reach_child self p n q :
  skipped self (Path.child p n) = false ->
  reach self (Path.child p n) q -> reach self p q.
Proof.
  intros Hs (rel & -> & Hrel). exists (n :: rel). split.
  - unfold Path.child. now rewrite <- app_assoc.
  - constructor; auto. now rewrite <- (skipped_child self p n).
Qed.

Section LoopInv.

Variable process : Path.t -> M (option Item).
Variable Good : Item -> Prop.
Variable EvGood : Path.t -> event -> Prop.
Variable skip : Path.t -> bool.

Lemma traverse_loop_inv entries : forall p cs0 tr res tr',
  (forall entry, In entry entries ->
     forall tr res tr', process entry tr = (res, tr') ->
       exists new, tr' = tr ++ new /\ Forall (EvGood entry) new /\
         forall o, res = Ok o ->
           if skip entry then o = None
           else exists it, o = Some it /\ item_path it = entry /\ Good it) ->
  traverse_loop process (Directory p cs0) entries tr = (res, tr') ->
  exists new, tr' = tr ++ new
    /\ Forall (fun e => exists entry, In entry entries /\ EvGood entry e) new
    /\ forall r, res = Ok r ->
         exists cs, r = Directory p (cs0 ++ cs)
           /\ map item_path cs = filter (fun q => negb (skip q)) entries
           /\ Forall Good cs.
Proof.
  induction entries as [|entry rest IH]; intros p cs0 tr res tr' Hproc H.
  - simpl in H. unfold ret in H. inversion H; subst.
    exists []. rewrite app_nil_r. repeat split; auto.
    intros r Hr. inversion Hr; subst. exists []. now rewrite app_nil_r.
  - simpl in H. unfold bind in H.
    destruct (process entry tr) as [res1 tr1] eqn:E1.
    destruct (Hproc entry (or_introl eq_refl) _ _ _ E1) as (new1 & -> & Hev1 & Hres1).
    assert (Hev1' : Forall (fun e => exists entry0, In entry0 (entry :: rest) /\ EvGood entry0 e) new1).
    { eapply Forall_impl; [|exact Hev1]. intros e He. exists entry. simpl; auto. }
    assert (Hrest : forall entry0, In entry0 rest ->
       forall tr res tr', process entry0 tr = (res, tr') ->
       exists new, tr' = tr ++ new /\ Forall (EvGood entry0) new /\
         forall o, res = Ok o ->
           if skip entry0 then o = None
           else exists it, o = Some it /\ item_path it = entry0 /\ Good it).
    { intros entry0 Hin. apply Hproc. simpl; auto. }
    assert (Hwiden : forall new2,
       Forall (fun e => exists entry0, In entry0 rest /\ EvGood entry0 e) new2 ->
       Forall (fun e => exists entry0, In entry0 (entry :: rest) /\ EvGood entry0 e) new2).
    { intros new2. apply Forall_impl. intros e (entry0 & Hin & He). exists entry0. simpl; auto. }
    destruct res1 as [o|e].
    + specialize (Hres1 o eq_refl). simpl. destruct (skip entry) eqn:Hskip.
      * subst o. destruct (IH _ _ _ _ _ Hrest H) as (new2 & -> & Hev2 & Hres2).
        exists (new1 ++ new2). rewrite app_assoc. split; auto. split.
        -- apply Forall_app. auto.
        -- exact Hres2.
      * destruct Hres1 as (it & -> & Hpath & Hgood).
        unfold lift, append_child in H.
        destruct (IH _ _ _ _ _ Hrest H) as (new2 & -> & Hev2 & Hres2).
        exists (new1 ++ new2). rewrite app_assoc. split; auto. split.
        -- apply Forall_app. auto.
        -- intros r Hr. destruct (Hres2 r Hr) as (cs & -> & Hmap & Hcs).
           exists (it :: cs). rewrite <- app_assoc. simpl. repeat split; auto.
           now rewrite Hpath, Hmap.
    + inversion H; subst. exists new1. repeat split; auto. discriminate.
Qed.

End LoopInv.

Section WalkSpec.

Variable fs : FileSystem.
Variable self : Tree.

(** What one call of [process_item] does, given what the calls of
    [traverse_tree] it makes do. *)
Lemma process_item_inv (rec : Item -> Z -> M Item) d entry :
  (forall tr res tr', rec (Directory entry []) (d + 1)%Z tr = (res, tr') ->
     exists new, tr' = tr ++ new
       /\ Forall (fun e => reach self entry (event_path e)) new
       /\ forall r, res = Ok r ->
            exists names cs, r = Directory entry cs
              /\ fs_iterdir fs entry = Ok names
              /\ map item_path cs = kept_entries self entry names
              /\ Forall (built fs self (d + 1)) cs) ->
  forall tr res tr', process_item fs rec self entry d tr = (res, tr') ->
    exists new, tr' = tr ++ new
      /\ Forall (fun e => skipped self entry = false
                          /\ reach self entry (event_path e)) new
      /\ forall o, res = Ok o ->
           if skipped self entry then o = None
           else exists it, o = Some it /\ item_path it = entry
                           /\ built fs self d it.
Proof.
  intros Hrec tr res tr' H.
  unfold process_item, bind, lift in H. rewrite skip_condition_ok in H.
  destruct (skipped self entry) eqn:Hskip.
  - unfold ret in H. inversion H; subst. exists []. rewrite app_nil_r.
    repeat split; auto. intros o Ho. now inversion Ho.
  - unfold is_dir in H. destruct (fs_is_dir fs entry) as [[|]|e] eqn:Hdir.
    + destruct (break_condition self d) eqn:Hbreak.
      * destruct (rec (Directory entry []) (d + 1)%Z (tr ++ [EvIsDir entry]))
          as [res1 tr1] eqn:E1.
        destruct (Hrec _ _ _ E1) as (new1 & -> & Hev1 & Hres1).
        assert (Hev : Forall (fun e => skipped self entry = false
                        /\ reach self entry (event_path e)) (EvIsDir entry :: new1)).
        { constructor.
          - split; auto. apply reach_refl.
          - eapply Forall_impl; [|exact Hev1]. simpl. auto. }
        rewrite Hskip in Hev.
        exists (EvIsDir entry :: new1).
        destruct res1 as [r|e]; unfold ret in H; inversion H; subst; clear H;
          (split; [now rewrite <- app_assoc|]); (split; [exact Hev|]);
          intros o Ho; [|discriminate].
        inversion Ho; subst.
        destruct (Hres1 r eq_refl) as (names & cs & -> & Hnames & Hmap & Hcs).
        eexists. split; [reflexivity|]. split; [reflexivity|].
        simpl. rewrite Hskip, Hdir, Hbreak. repeat split; auto.
        exists names. repeat split; auto. now apply built_all.
      * unfold ret in H. inversion H; subst. exists [EvIsDir entry].
        split; auto. split.
        { constructor; auto. split; auto. apply reach_refl. }
        intros o Ho. inversion Ho; subst.
        eexists. split; [reflexivity|]. split; [reflexivity|].
        simpl. rewrite Hskip, Hdir, Hbreak. auto.
    + unfold is_symlink in H.
      destruct (fs_is_symlink fs entry) as [[|]|e] eqn:Hlink.
      * unfold readlink, ret in H.
        destruct (fs_readlink fs entry) as [t|e] eqn:Hread;
          inversion H; subst;
          exists [EvIsDir entry; EvIsSymlink entry; EvReadlink entry];
          rewrite <- !app_assoc; simpl; (split; auto); (split;
            [repeat constructor; auto; apply reach_refl|]);
          intros o Ho; [|discriminate].
        inversion Ho; subst.
        eexists. split; [reflexivity|]. split; [reflexivity|].
        simpl. rewrite Hskip, Hdir, Hlink, Hread. auto.
      * unfold ret in H. inversion H; subst.
        exists [EvIsDir entry; EvIsSymlink entry].
        rewrite <- !app_assoc. simpl. split; auto. split.
        { repeat constructor; auto; apply reach_refl. }
        intros o Ho. inversion Ho; subst.
        eexists. split; [reflexivity|]. split; [reflexivity|].
        simpl. rewrite Hskip, Hdir, Hlink. auto.
      * inversion H; subst.
        exists [EvIsDir entry; EvIsSymlink entry].
        rewrite <- !app_assoc. simpl. split; auto. split.
        { repeat constructor; auto; apply reach_refl. }
        discriminate.
    + inversion H; subst. exists [EvIsDir entry].
      split; auto. split.
      { constructor; auto. split; auto. apply reach_refl. }
      discriminate.
Qed.

(** The tree that [traverse_tree] returns and the queries it makes. *)
Lemma traverse_tree_inv fuel : forall p cs0 d tr res tr',
  traverse_tree fs fuel self (Directory p cs0) d tr = (res, tr') ->
  exists new, tr' = tr ++ new
    /\ Forall (fun e => reach self p (event_path e)) new
    /\ forall r, res = Ok r ->
         exists names cs, r = Directory p (cs0 ++ cs)
           /\ fs_iterdir fs p = Ok names
           /\ map item_path cs = kept_entries self p names
           /\ Forall (built fs self d) cs.
Proof.
  induction fuel as [|fuel IH]; intros p cs0 d tr res tr' H.
  - simpl in H. unfold raise in H. inversion H; subst.
    exists []. rewrite app_nil_r. repeat split; auto. discriminate.
  - simpl in H. unfold bind at 1 in H. unfold iterdir in H.
    destruct (fs_iterdir fs p) as [names|e] eqn:Hnames.
    + apply traverse_loop_inv with
        (Good := built fs self d)
        (EvGood := fun entry e => skipped self entry = false
                                  /\ reach self entry (event_path e))
        (skip := skipped self) in H.
      * destruct H as (new & -> & Hev & Hres).
        exists (EvIterdir p :: new). rewrite <- app_assoc. simpl.
        split; auto. split.
        -- constructor; [apply reach_refl|].
           eapply Forall_impl; [|exact Hev].
           intros e (entry & Hin & Hs & Hr).
           apply sorted_In, in_map_iff in Hin. destruct Hin as (n & <- & _).
           eapply reach_child; eauto.
        -- intros r Hr. destruct (Hres r Hr) as (cs & -> & Hmap & Hcs).
           exists names, cs. repeat split; auto.
      * intros entry _. apply process_item_inv.
        intros tr0 res0 tr0' H0. apply IH in H0.
        destruct H0 as (new & -> & Hev & Hres). exists new. repeat split; auto.
    + inversion H; subst. exists [EvIterdir p]. repeat split; auto.
      * constructor; auto. apply reach_refl.
      * discriminate.
Qed.

End WalkSpec.

Lemma items_below_Directory p cs x :
  In x (items_below (Directory p cs)) <->
  exists c, In c cs /\ (x = c \/ In x (items_below c)).
Proof.
  cbn [items_below]. induction cs as [|c cs IH].
  - split; [intros []|intros (? & [] & _)].
  - cbn [In]. rewrite in_app_iff, IH. split.
    + intros [<-|[H|(c' & Hc' & H)]]; eauto 6.
    + intros (c' & [<-|Hc'] & [->|H]); eauto 6.
Qed.

Section Built.

Variable fs : FileSystem.
Variable self : Tree.

(** Below an item the walker has made, every item is one it has made, at
    a path that goes through no excluded name. *)
Lemma built_below it : forall d, built fs self d it ->
  forall x, In x (items_below it) ->
    reach self (item_path it) (item_path x) /\ exists d', built fs self d' x.
Proof.
  induction it as [p|p t|p cs IH] using Item_nested_ind; intros d Hb x Hx;
    try contradiction.
  apply items_below_Directory in Hx. destruct Hx as (c & Hc & Hx).
  destruct Hb as (_ & _ & Hb). destruct (break_condition self d).
  - destruct Hb as (names & Hnames & Hmap & Hall). apply built_all in Hall.
    rewrite Forall_forall in IH, Hall. specialize (Hall c Hc).
    assert (Hin : In (item_path c) (kept_entries self p names)).
    { rewrite <- Hmap. now apply in_map. }
    apply kept_entries_In in Hin. destruct Hin as ((n & _ & En) & Hs).
    simpl. destruct Hx as [->|Hx].
    + split; eauto. rewrite En in *. eapply reach_child; eauto. apply reach_refl.
    + destruct (IH c Hc _ Hall x Hx) as (Hr & Hd). split; auto.
      rewrite En in *. eapply reach_child; eauto.
  - subst cs. contradiction.
Qed.

Lemma walked_below p cs names d :
  map item_path cs = kept_entries self p names ->
  Forall (built fs self d) cs ->
  forall x, In x (items_below (Directory p cs)) ->
    reach self p (item_path x) /\ exists d', built fs self d' x.
Proof.
  intros Hmap Hall x Hx. apply items_below_Directory in Hx.
  destruct Hx as (c & Hc & Hx). rewrite Forall_forall in Hall.
  specialize (Hall c Hc).
  assert (Hin : In (item_path c) (kept_entries self p names)).
  { rewrite <- Hmap. now apply in_map. }
  apply kept_entries_In in Hin. destruct Hin as ((n & _ & En) & Hs).
  destruct Hx as [->|Hx].
  - split; eauto. rewrite En in *. eapply reach_child; eauto. apply reach_refl.
  - destruct (built_below _ _ Hall x Hx) as (Hr & Hd). split; auto.
    rewrite En in *. eapply reach_child; eauto.
Qed.

Lemma reach_excluded p rel n more :
  skipped self [n] = true -> ~ reach self p (p ++ rel ++ n :: more).
Proof.
  intros Hs (rel' & E & Hrel). apply app_inv_head in E. subst rel'.
  rewrite Forall_forall in Hrel. specialize (Hrel n).
  rewrite Hrel in Hs; [discriminate|]. apply in_app_iff. simpl. auto.
Qed.

Lemma skipped_by_pattern n pattern :
  In pattern (exclude self) -> Fnmatch.fnmatch n pattern = Ok true ->
  skipped self [n] = true.
Proof.
  intros Hin Hm. unfold skipped, skip_condition.
  assert (H : skip_loop (exclude self) [n] = Ok true).
  { apply skip_loop_true. exists pattern. split; auto. }
  now rewrite H.
Qed.

(** At the depth where [break_condition] fails, [process_item] looks at
    the entry and at nothing below it. *)
Lemma process_item_cut (rec : Item -> Z -> M Item) d entry tr :
  break_condition self d = false ->
  exists res new, process_item fs rec self entry d tr = (res, tr ++ new)
    /\ Forall (fun e => event_path e = entry) new
    /\ forall o, res = Ok o ->
         if skipped self entry then o = None
         else exists it, o = Some it /\ item_path it = entry /\ children_of it = [].
Proof.
  intros Hbreak. unfold process_item, bind, lift. rewrite skip_condition_ok.
  destruct (skipped self entry) eqn:Hskip.
  - exists (Ok None), []. rewrite app_nil_r. repeat split; auto.
    intros o Ho. now inversion Ho.
  - unfold is_dir. destruct (fs_is_dir fs entry) as [[|]|e].
    + rewrite Hbreak. eexists _, [_]. split; [reflexivity|]. split.
      * repeat constructor.
      * intros o Ho. inversion Ho. eexists. repeat split.
    + unfold is_symlink. destruct (fs_is_symlink fs entry) as [[|]|e].
      * unfold readlink, ret. destruct (fs_readlink fs entry) as [t|e];
          eexists _, [_; _; _]; rewrite <- !app_assoc;
          (split; [reflexivity|]); (split; [repeat constructor|]);
          intros o Ho; inversion Ho; eexists; repeat split.
      * unfold ret. eexists _, [_; _]. rewrite <- !app_assoc.
        split; [reflexivity|]. split.
        -- repeat constructor.
        -- intros o Ho. inversion Ho. eexists. repeat split.
      * eexists _, [_; _]. rewrite <- !app_assoc.
        split; [reflexivity|]. split; [repeat constructor|]. discriminate.
    + eexists _, [_]. split; [reflexivity|].
      split; [repeat constructor|]. discriminate.
Qed.

(** It returns when the entry is excluded or can be examined. *)
Lemma process_item_cut_returns (rec : Item -> Z -> M Item) d entry tr :
  break_condition self d = false ->
  skipped self entry = true \/ examinable fs entry = true ->
  exists o tr', process_item fs rec self entry d tr = (Ok o, tr').
Proof.
  intros Hbreak Hex. unfold process_item, bind, lift. rewrite skip_condition_ok.
  destruct (skipped self entry) eqn:Hskip.
  - unfold ret. eauto.
  - destruct Hex as [Hex|Hex]; [discriminate|]. unfold examinable in Hex.
    unfold is_dir. destruct (fs_is_dir fs entry) as [[|]|e]; try discriminate.
    + rewrite Hbreak. unfold ret. eauto.
    + unfold is_symlink.
      destruct (fs_is_symlink fs entry) as [[|]|e]; try discriminate.
      * unfold readlink, ret.
        destruct (fs_readlink fs entry) as [t|e]; try discriminate. eauto.
      * unfold ret. eauto.
Qed.

End Built.

Lemma traverse_loop_total (process : Path.t -> M (option Item)) entries :
  (forall entry tr, In entry entries -> exists o tr', process entry tr = (Ok o, tr')) ->
  forall p cs tr, exists r tr',
    traverse_loop process (Directory p cs) entries tr = (Ok r, tr').
Proof.
  induction entries as [|entry rest IH]; intros Hp p cs tr; simpl.
  - unfold ret. eauto.
  - unfold bind. destruct (Hp entry tr (or_introl eq_refl)) as (o & tr1 & E).
    rewrite E.
    assert (Hrest : forall entry tr, In entry rest ->
              exists o tr', process entry tr = (Ok o, tr')).
    { intros e0 tr0 He0. apply Hp. now right. }
    destruct o as [it|].
    + unfold lift, append_child. now apply IH.
    + now apply IH.
Qed.

Lemma build_tree_unfold fs fuel r depth ex p cs tr :
  validate_root fs r = Ok (Directory p cs) ->
  build_tree fs fuel r depth ex tr
  = traverse_tree fs fuel
      {| root := Directory p cs; max_depth := depth;
         exclude := match ex with Some l => l | None => [] end |}
      (Directory p cs) 0%Z tr.
Proof.
  intros H. unfold build_tree, bind, lift, Tree_init. rewrite H. reflexivity.
Qed.

(** * Facts about the renderer *)

Lemma draw_Directory p children prefix is_last :
  draw (Directory p children) prefix is_last
  = draw_loop (length children) prefix 0%Z children.
Proof.
  cbn [draw]. remember (length children) as n eqn:En. clear En.
  generalize 0%Z. induction children as [|c cs IH]; intros i.
  - reflexivity.
  - cbn [draw_loop]. rewrite <- IH. reflexivity.
Qed.

Lemma draw_loop_app n prefix before : forall i after,
  draw_loop n prefix i (before ++ after)
  = draw_loop n prefix i before
    ++ draw_loop n prefix (i + Z.of_nat (length before))%Z after.
Proof.
  induction before as [|c before IH]; intros i after.
  - simpl. now rewrite Z.add_0_r.
  - cbn [draw_loop app length]. rewrite IH.
    replace (i + 1 + Z.of_nat (length before))%Z
      with (i + Z.of_nat (S (length before)))%Z by lia.
    now rewrite <- !app_assoc.
Qed.

(** One turn of the loop, for a child followed by the siblings [later]. *)
Lemma draw_loop_cons n prefix i child later :
  Z.of_nat n = (i + 1 + Z.of_nat (length later))%Z ->
  draw_loop n prefix i (child :: later)
  = (prefix ++ connector_for later ++ lit " " ++ display_name child
       ++ annotation child ++ NEWLINE)
    ++ draw child (prefix ++ extension_for later) (is_nil later)
    ++ draw_loop n prefix (i + 1)%Z later.
Proof.
  intros Hn. cbn [draw_loop].
  assert (E : (i =? Z.of_nat n - 1)%Z = is_nil later).
  { destruct later; simpl in *.
    - apply Z.eqb_eq. lia.
    - apply Z.eqb_neq. lia. }
  rewrite E. unfold connector_for, extension_for, display_name.
  rewrite <- !app_assoc. do 3 f_equal.
  destruct child as [q|q target|q cs]; cbn [is_directory annotation];
    rewrite <- ?app_assoc; reflexivity.
Qed.

Lemma draw_loop_render n prefix rest : forall i,
  Z.of_nat n = (i + Z.of_nat (length rest))%Z ->
  draw_loop n prefix i rest = render_children prefix rest.
Proof.
  induction rest as [|child later IH]; intros i Hn.
  - reflexivity.
  - rewrite draw_loop_cons by (simpl in Hn; lia).
    cbn [render_children]. rewrite IH by (simpl in Hn; lia). reflexivity.
Qed.

(** ** The renderer on objects *)

Lemma writes_only_ret {A} (a : A) : writes_only (pret a).
Proof. intros h. exists (Ok a), []. intros w. unfold pret. now rewrite app_nil_r. Qed.

Lemma writes_only_raise {A} (e : exn) : writes_only (@praise A e).
Proof. intros h. exists (Raise e), []. intros w. unfold praise. now rewrite app_nil_r. Qed.

Lemma writes_only_print text : writes_only (print text).
Proof. intros h. exists (Ok tt), text. reflexivity. Qed.

Lemma writes_only_bind {A B} (m : P A) (k : A -> P B) :
  writes_only m -> (forall a, writes_only (k a)) -> writes_only (pbind m k).
Proof.
  intros Hm Hk h. destruct (Hm h) as ([a|e] & text & Em).
  - destruct (Hk a h) as (res & text' & Ek). exists res, (text ++ text').
    intros w. unfold pbind. rewrite Em, Ek. now rewrite app_assoc.
  - exists (Raise e), text. intros w. unfold pbind. now rewrite Em.
Qed.

(** The attributes read are those of the object in the store. *)
Lemma writes_only_load {B} r (k : object -> P B) :
  (forall o, writes_only (k o)) -> writes_only (pbind (load r) k).
Proof.
  intros Hk h. destruct (Hk (h r) h) as (res & text & Ek).
  exists res, text. intros w. unfold pbind, load. cbn [objects]. apply Ek.
Qed.

Lemma draw_children_writes_only (rec : ref -> str -> bool -> P unit) n prefix :
  (forall r p b, writes_only (rec r p b)) ->
  forall rest i, writes_only (draw_children rec n prefix i rest).
Proof.
  intros Hrec. induction rest as [|child rest IH]; intros i; cbn [draw_children].
  - apply writes_only_ret.
  - apply writes_only_load. intros c.
    apply writes_only_bind; [apply writes_only_print|]. intros _.
    apply writes_only_bind.
    { destruct c; apply writes_only_print. }
    intros _. apply writes_only_bind.
    { destruct (object_is_directory c); [apply Hrec|apply writes_only_ret]. }
    intros _. apply IH.
Qed.

Lemma draw_object_writes_only fuel : forall item prefix is_last,
  writes_only (draw_object fuel item prefix is_last).
Proof.
  induction fuel as [|fuel IH]; intros item prefix is_last; cbn [draw_object].
  - apply writes_only_raise.
  - apply writes_only_load. intros [p|p t|p children];
      try apply writes_only_ret.
    now apply draw_children_writes_only.
Qed.

Lemma GraphTree_draw_object_writes_only fuel root :
  writes_only (GraphTree_draw_object fuel root).
Proof.
  destruct fuel as [|fuel]; unfold GraphTree_draw_object.
  - apply writes_only_raise.
  - apply writes_only_load. intros o.
    apply writes_only_bind; [apply writes_only_print|]. intros _.
    apply draw_object_writes_only.
Qed.

(** What [read_item] gives is the object at the reference. *)
Lemma read_item_object n h r c :
  read_item n h r = Some c ->
  object_path (h r) = item_path c
  /\ object_is_directory (h r) = is_directory c
  /\ match h r, c with
     | LinkObject _ t, Link _ t' => t = t'
     | LinkObject _ _, _ | _, Link _ _ => False
     | _, _ => True
     end.
Proof.
  destruct n as [|n]; [discriminate|]. cbn [read_item].
  destruct (h r) as [p|p t|p rs].
  - intros E. inversion E. now subst.
  - intros E. inversion E. now subst.
  - destruct (read_all (read_item n h) rs); [|discriminate].
    intros E. inversion E. now subst.
Qed.

Lemma read_all_length read rs : forall cs,
  read_all read rs = Some cs -> length rs = length cs.
Proof.
  induction rs as [|r rs IH]; intros cs; cbn [read_all].
  - intros E. now inversion E.
  - destruct (read r), (read_all read rs); try discriminate.
    intros E. inversion E. cbn [length]. f_equal. now apply IH.
Qed.

(** On objects that hold a tree of items, the loop of [draw] writes what
    the loop over the items writes. *)
Lemma draw_children_read (rec : ref -> str -> bool -> P unit) read h m prefix :
  (forall r c, read r = Some c ->
     object_path (h r) = item_path c
     /\ object_is_directory (h r) = is_directory c
     /\ match h r, c with
        | LinkObject _ t, Link _ t' => t = t'
        | LinkObject _ _, _ | _, Link _ _ => False
        | _, _ => True
        end) ->
  (forall r c p b w, read r = Some c -> is_directory c = true ->
     rec r p b {| objects := h; written := w |}
     = (Ok tt, {| objects := h; written := w ++ draw c p b |})) ->
  forall rs cs i w, read_all read rs = Some cs ->
    draw_children rec m prefix i rs {| objects := h; written := w |}
    = (Ok tt, {| objects := h; written := w ++ draw_loop m prefix i cs |}).
Proof.
  intros Hobj Hrec. induction rs as [|r rs IH]; intros cs i w; cbn [read_all draw_children].
  - intros E. inversion E. cbn [draw_loop]. unfold pret. now rewrite app_nil_r.
  - destruct (read r) as [c|] eqn:Ec; [|discriminate].
    destruct (read_all read rs) as [cs'|] eqn:Ecs; [|discriminate].
    intros E. inversion E; subst; clear E.
    destruct (Hobj r c Ec) as (Hpath & Hdir & Hlink).
    unfold pbind at 1. unfold load. cbn [objects].
    assert (Hname : object_name (h r) = item_name c).
    { unfold object_name, item_name. now rewrite Hpath. }
    rewrite Hname, Hdir. cbn [draw_loop].
    unfold pbind at 1. unfold print at 1. cbn [objects written].
    unfold pbind at 1.
    assert (Hnote : forall w0,
      match h r with
      | LinkObject _ target =>
          print (lit " " ++ value LINK ++ lit " " ++ target ++ NEWLINE)
      | _ => print NEWLINE
      end {| objects := h; written := w0 |}
      = (Ok tt, {| objects := h;
                   written := w0 ++ match c with
                                    | Link _ target =>
                                        lit " " ++ value LINK ++ lit " " ++ target ++ NEWLINE
                                    | _ => NEWLINE
                                    end |})).
    { intros w0. destruct (h r), c; try contradiction; try reflexivity.
      now subst. }
    rewrite Hnote. unfold pbind at 1.
    destruct (is_directory c) eqn:Hc.
    + rewrite (Hrec r c _ _ _ Ec Hc). rewrite (IH cs' _ _ eq_refl).
      f_equal. f_equal. now rewrite <- !app_assoc.
    + unfold pret. rewrite (IH cs' _ _ eq_refl).
      f_equal. f_equal. now rewrite <- !app_assoc.
Qed.

(** On objects that hold a tree of items, with recursion enough for its
    levels, [draw] writes the text of the tree. *)
Lemma draw_object_read n : forall fuel h r item prefix is_last w,
  read_item n h r = Some item -> (n <= fuel)%nat ->
  draw_object fuel r prefix is_last {| objects := h; written := w |}
  = (Ok tt, {| objects := h; written := w ++ draw item prefix is_last |}).
Proof.
  induction n as [|n IH]; intros fuel h r item prefix is_last w Hread Hfuel;
    [discriminate|].
  destruct fuel as [|fuel]; [lia|]. cbn [read_item] in Hread. cbn [draw_object].
  unfold pbind, load. cbn [objects].
  destruct (h r) as [p|p t|p rs].
  - inversion Hread. unfold pret. cbn [draw]. now rewrite app_nil_r.
  - inversion Hread. unfold pret. cbn [draw]. now rewrite app_nil_r.
  - destruct (read_all (read_item n h) rs) as [cs|] eqn:Ecs; [|discriminate].
    inversion Hread; subst; clear Hread.
    rewrite draw_Directory, (read_all_length _ _ Ecs).
    apply draw_children_read with (read := read_item n h); auto.
    + intros r0 c. apply read_item_object.
    + intros r0 c p0 b w0 Hc _. apply IH; [exact Hc|lia].
Qed.

(** * The claims *)

Import DiskFS Examples.

(** ** The renderer *)

(** C8.  [GraphTree.draw] writes to the standard output and assigns to no
    item: whatever the objects hold and however the call ends, the store
    after the call has the objects it had before, and a second call on
    them ends the same way and writes the same text again.  Where the
    objects hold a tree of items and the recursion suffices for its
    levels, that text is the header line and the lines of the tree. *)
Theorem draw_leaves_items_unchanged :
  (forall fuel root s, exists res text,
     GraphTree_draw_object fuel root s
     = (res, {| objects := objects s; written := written s ++ text |})
     /\ GraphTree_draw_object fuel root
          {| objects := objects s; written := written s ++ text |}
        = (res, {| objects := objects s; written := (written s ++ text) ++ text |}))
  /\ (forall n fuel root s item,
        read_item n (objects s) root = Some item -> (n <= fuel)%nat ->
        GraphTree_draw_object fuel root s
        = (Ok tt, {| objects := objects s; written := written s ++ render item |})).
Proof.
  split.
  - intros fuel root [h w].
    destruct (GraphTree_draw_object_writes_only fuel root h) as (res & text & E).
    exists res, text. cbn [objects written]. now rewrite !E.
  - intros n fuel root [h w] item Hread Hfuel. cbn [objects written] in *.
    destruct (read_item_object _ _ _ Hread) as (Hpath & _ & _).
    destruct fuel as [|fuel]; [destruct n; [discriminate|lia]|].
    unfold GraphTree_draw_object, pbind, load, print. cbn [objects written].
    rewrite (@draw_object_read n (S fuel) h root item [] true _ Hread Hfuel).
    unfold render, GraphTree_draw, object_name, item_name. cbn [tree stdout app].
    rewrite Hpath. now rewrite <- !app_assoc.
Qed.

Lemma draw_leaves_items_unchanged_witness :
  read_item 3 objects_t 0 = Some tree_t
  /\ GraphTree_draw_object 3 0 {| objects := objects_t; written := [] |}
     = (Ok tt, {| objects := objects_t; written := [] ++ render tree_t |})
  /\ render tree_t = text_t.
Proof.
  assert (Hread : read_item 3 objects_t 0 = Some tree_t) by (vm_compute; reflexivity).
  split; [exact Hread|]. split.
  - refine (proj2 draw_leaves_items_unchanged 3%nat 3%nat 0%nat
              {| objects := objects_t; written := [] |} tree_t Hread _).
    lia.
  - vm_compute. reflexivity.
Defined.

(** The objects matter: once [children.append] has put the file at the
    reference 3 into the directory [sub] as well, the next call writes
    another text. *)
Lemma draw_after_append_differs :
  exists s,
    children_append 1 3 {| objects := objects_t; written := [] |} = (Ok tt, s)
    /\ read_item 3 (objects s) 0
       = Some (Directory [lit "t"]
                 [Directory [lit "t"; lit "sub"]
                    [File [lit "t"; lit "sub"; lit "x.txt"]; File [lit "t"; lit "y.txt"]];
                  File [lit "t"; lit "y.txt"]])
    /\ written (snd (GraphTree_draw_object 3 0 s)) <> render tree_t.
Proof.
  eexists. split; [reflexivity|]. split.
  - vm_compute. reflexivity.
  - vm_compute. discriminate.
Qed.

(** C2, refuted.  The walk of [/t], which holds the directory [sub] and
    the file [y.txt], is drawn with the branching glyph before [sub/] and
    the vertical bar before [x.txt]. *)
Lemma branching_glyph_is_printed :
  fst (main_one (mount disk_t []) 10 (lit "/t") None [] []) = Ok (tree_t, text_t)
  /\ occurs (value FILE) text_t = true.
Proof. split; vm_compute; reflexivity. Qed.

(** C2, amended.  Every child line that [GraphTree.draw] writes carries the
    connector of the last sibling when the child is the last of its
    siblings, and the branching connector when siblings follow it; the
    two glyphs differ. *)
Theorem connector_by_position p children prefix is_last :
  draw (Directory p children) prefix is_last = render_children prefix children
  /\ connector_for [] = value LAST
  /\ (forall sibling later, connector_for (sibling :: later) = value FILE)
  /\ value FILE <> value LAST.
Proof.
  split; [|repeat split; discriminate].
  rewrite draw_Directory. apply draw_loop_render. lia.
Qed.

(** C7.  A [Link] that the walker makes holds what [os.readlink] returned
    for its path.  The line of a [Link] child ends with [" -> "] and that
    target; the line of any other child ends with its display name. *)
Theorem link_line_ends_with_target :
  (forall fs self fuel p d tr root' tr' q target,
     traverse_tree fs fuel self (Directory p []) d tr = (Ok root', tr') ->
     In (Link q target) (items_below root') ->
     fs_is_symlink fs q = Ok true /\ fs_readlink fs q = Ok target)
  /\ (forall p before q target after prefix is_last,
        draw (Directory p (before ++ Link q target :: after)) prefix is_last
        = draw_loop (length (before ++ Link q target :: after)) prefix 0 before
          ++ (prefix ++ connector_for after ++ lit " " ++ Path.name q
                ++ lit " -> " ++ target ++ NEWLINE)
          ++ render_children prefix after)
  /\ (forall p before child after prefix is_last,
        is_link child = false ->
        draw (Directory p (before ++ child :: after)) prefix is_last
        = draw_loop (length (before ++ child :: after)) prefix 0 before
          ++ (prefix ++ connector_for after ++ lit " " ++ display_name child
                ++ NEWLINE)
          ++ draw child (prefix ++ extension_for after) (is_nil after)
          ++ render_children prefix after).
Proof.
  assert (Hsplit : forall p before child after prefix is_last,
    draw (Directory p (before ++ child :: after)) prefix is_last
    = draw_loop (length (before ++ child :: after)) prefix 0 before
      ++ (prefix ++ connector_for after ++ lit " " ++ display_name child
            ++ annotation child ++ NEWLINE)
      ++ draw child (prefix ++ extension_for after) (is_nil after)
      ++ render_children prefix after).
  { intros. rewrite draw_Directory, draw_loop_app. f_equal.
    rewrite draw_loop_cons by (rewrite length_app; simpl; lia).
    do 2 f_equal. apply draw_loop_render. rewrite length_app. simpl. lia. }
  split; [|split].
  - intros fs self fuel p d tr root' tr' q target H Hin.
    apply traverse_tree_inv in H. destruct H as (_ & _ & _ & H).
    destruct (H root' eq_refl) as (names & cs & -> & _ & Hmap & Hall).
    destruct (@walked_below fs self p cs names d Hmap Hall _ Hin) as (_ & d' & Hb).
    simpl in Hb. tauto.
  - intros. rewrite Hsplit. cbn [draw is_directory display_name annotation item_name item_path].
    now rewrite <- !app_assoc.
  - intros p before child after prefix is_last Hl. rewrite Hsplit.
    destruct child; try discriminate; reflexivity.
Qed.

Lemma link_line_ends_with_target_witness :
  In (Link [lit "t"; lit "k"] (lit "nowhere")) (items_below tree_link)
  /\ (fs_is_symlink (mount disk_link []) [lit "t"; lit "k"] = Ok true
      /\ fs_readlink (mount disk_link []) [lit "t"; lit "k"] = Ok (lit "nowhere"))
  /\ draw (Directory [lit "t"] [File [lit "t"; lit "a"]]) [] true
     = value LAST ++ lit " a" ++ NEWLINE.
Proof.
  destruct link_line_ends_with_target as (H1 & _ & H3).
  assert (Hin : In (Link [lit "t"; lit "k"] (lit "nowhere")) (items_below tree_link)).
  { simpl. auto. }
  split; [exact Hin|]. split.
  - apply (H1 (mount disk_link []) (Build_Tree (Directory [lit "t"] []) None [])
              10%nat [lit "t"] 0%Z [] tree_link
              (snd (traverse_tree (mount disk_link []) 10
                      (Build_Tree (Directory [lit "t"] []) None [])
                      (Directory [lit "t"] []) 0 []))).
    + vm_compute. reflexivity.
    + exact Hin.
  - apply (H3 [lit "t"] [] (File [lit "t"; lit "a"]) [] [] true). reflexivity.
Defined.

(** ** The walker *)

(** C1, the code at the failing input.  [/t/l] is a symbolic link to the
    directory [/t/d]: the walker makes a [Directory] of it, lists the
    target through it and gives it the child [x].  The link [/t/k], which
    leads nowhere, is the only [Link]. *)
Theorem link_to_directory_is_walked :
  fs_is_symlink (mount disk_link []) [lit "t"; lit "l"] = Ok true
  /\ fst (build_tree (mount disk_link []) 10 (RootStr (lit "/t")) None None [])
     = Ok tree_link
  /\ In (EvIterdir [lit "t"; lit "l"])
       (snd (build_tree (mount disk_link []) 10 (RootStr (lit "/t")) None None [])).
Proof.
  split; [|split].
  - vm_compute. reflexivity.
  - vm_compute. reflexivity.
  - vm_compute. tauto.
Qed.

(** C3, the code at the failing inputs.  [/nope] does not exist and [/t/f]
    is a regular file: [Tree(...)] accepts both, and the error is the
    [OSError] of [iterdir] when the traversal starts; [main] meets the same
    error. *)
Theorem missing_root_is_accepted :
  Tree_init (mount disk_file []) (RootStr (lit "/nope")) None None
    = Ok {| root := Directory [lit "nope"] []; max_depth := None; exclude := [] |}
  /\ build_tree (mount disk_file []) 10 (RootStr (lit "/nope")) None None []
     = (Raise (OSError [lit "nope"]), [EvIterdir [lit "nope"]])
  /\ fs_is_dir (mount disk_file []) [lit "t"; lit "f"] = Ok false
  /\ Tree_init (mount disk_file []) (RootStr (lit "/t/f")) None None
     = Ok {| root := Directory [lit "t"; lit "f"] []; max_depth := None; exclude := [] |}
  /\ build_tree (mount disk_file []) 10 (RootStr (lit "/t/f")) None None []
     = (Raise (OSError [lit "t"; lit "f"]), [EvIterdir [lit "t"; lit "f"]])
  /\ main_one (mount disk_file []) 10 (lit "/nope") None [] []
     = (Raise (OSError [lit "nope"]), [EvIterdir [lit "nope"]]).
Proof. repeat split; vm_compute; reflexivity. Qed.

(** C4, refuted.  With [max_depth = 1] the directory [sub], a direct child
    of the root [/t], is expanded: it holds [x.txt]. *)
Lemma depth_one_expands_children :
  fst (build_tree (mount disk_t []) 10 (RootStr (lit "/t")) (Some 1%Z) None [])
    = Ok tree_t
  /\ ~ Forall (fun c => is_directory c = true -> children_of c = [])
         (children_of tree_t).
Proof.
  split.
  - vm_compute. reflexivity.
  - intros H. inversion H as [|c cs Hc _]; subst.
    specialize (Hc eq_refl). discriminate.
Qed.

(** C4, amended.  A call with [max_depth = 1] lists the direct entries of
    the root and expands every directory among them by one level: such a
    directory holds its own kept entries, and every item found in it is
    appended with empty children. *)
Theorem depth_one_stops_below_children fs fuel r ex p tr root' tr' :
  validate_root fs r = Ok (Directory p []) ->
  build_tree fs fuel r (Some 1%Z) ex tr = (Ok root', tr') ->
  let self := {| root := Directory p []; max_depth := Some 1%Z;
                 exclude := match ex with Some l => l | None => [] end |} in
  (exists names, fs_iterdir fs p = Ok names
     /\ map item_path (children_of root') = kept_entries self p names)
  /\ forall c, In c (children_of root') -> is_directory c = true ->
       exists names, fs_iterdir fs (item_path c) = Ok names
         /\ map item_path (children_of c) = kept_entries self (item_path c) names
         /\ forall g, In g (children_of c) -> children_of g = [].
Proof.
  intros Hr H self. erewrite build_tree_unfold in H by exact Hr.
  apply traverse_tree_inv in H. destruct H as (_ & _ & _ & H).
  destruct (H root' eq_refl) as (names & cs & -> & Hnames & Hmap & Hall).
  simpl. split; [eauto|].
  intros c Hc Hdir. rewrite Forall_forall in Hall. specialize (Hall c Hc).
  destruct c as [q|q t|q gs]; try discriminate.
  destruct Hall as (_ & _ & Hb). simpl in Hb.
  destruct Hb as (names' & Hnames' & Hmap' & Hgs). apply built_all in Hgs.
  exists names'. simpl. repeat split; auto.
  intros g Hg. rewrite Forall_forall in Hgs. specialize (Hgs g Hg).
  destruct g as [?|? ?|? ggs]; try reflexivity.
  destruct Hgs as (_ & _ & Hcut). simpl in Hcut. exact Hcut.
Qed.

Lemma depth_one_stops_below_children_witness :
  exists root',
    fst (build_tree (mount disk_deep []) 10 (RootStr (lit "/t")) (Some 1%Z) None [])
      = Ok root'
    /\ forall c, In c (children_of root') -> is_directory c = true ->
         exists names, fs_iterdir (mount disk_deep []) (item_path c) = Ok names
           /\ map item_path (children_of c)
              = kept_entries
                  {| root := Directory [lit "t"] []; max_depth := Some 1%Z; exclude := [] |}
                  (item_path c) names
           /\ forall g, In g (children_of c) -> children_of g = [].
Proof.
  eexists. split.
  - vm_compute. reflexivity.
  - refine (proj2 (@depth_one_stops_below_children
             (mount disk_deep []) 10 (RootStr (lit "/t")) None [lit "t"] [] _
             (snd (build_tree (mount disk_deep []) 10 (RootStr (lit "/t")) (Some 1%Z) None []))
             _ _)).
    + vm_compute. reflexivity.
    + vm_compute. reflexivity.
Defined.

(** C5, the code at the failing input.  [/t] holds the directory [.git]
    with the file [secret], and the link [alias] to [.git]; the pattern
    [.git] is excluded.  The entry [.git] is skipped, but the walker takes
    the link for a directory, lists [.git] through it, builds the item of
    [secret] and draws it. *)
Theorem excluded_directory_is_walked_through_link :
  skip_condition {| root := Directory [lit "t"] []; max_depth := None;
                    exclude := [lit ".git"] |} [lit "t"; lit ".git"] = Ok true
  /\ fs_is_symlink (mount disk_alias []) [lit "t"; lit "alias"] = Ok true
  /\ fs_readlink (mount disk_alias []) [lit "t"; lit "alias"] = Ok (lit ".git")
  /\ main_one (mount disk_alias []) 10 (lit "/t") None [lit ".git"] []
     = (Ok (Directory [lit "t"]
              [Directory [lit "t"; lit "alias"]
                 [File [lit "t"; lit "alias"; lit "secret"]]],
            lit "t/" ++ NEWLINE
            ++ value LAST ++ lit " alias/" ++ NEWLINE
            ++ lit "    " ++ value LAST ++ lit " secret" ++ NEWLINE),
        [EvIterdir [lit "t"];
         EvIsDir [lit "t"; lit "alias"];
         EvIterdir [lit "t"; lit "alias"];
         EvIsDir [lit "t"; lit "alias"; lit "secret"];
         EvIsSymlink [lit "t"; lit "alias"; lit "secret"]]).
Proof. repeat split; vm_compute; reflexivity. Qed.





(** C10, refuted.  [/t] can be listed and not searched: [iterdir] gives
    its entry [f], [is_dir] of [/t/f] raises, and so does the walk with
    [max_depth = 0]. *)
Lemma listed_root_is_not_walked :
  validate_root (mount disk_listed []) (RootStr (lit "/t")) = Ok (Directory [lit "t"] [])
  /\ fs_iterdir (mount disk_listed []) [lit "t"] = Ok [lit "f"]
  /\ fs_is_dir (mount disk_listed []) [lit "t"; lit "f"]
     = Raise (OSError [lit "t"; lit "f"])
  /\ build_tree (mount disk_listed []) 10 (RootStr (lit "/t")) (Some 0%Z) None []
     = (Raise (OSError [lit "t"; lit "f"]),
        [EvIterdir [lit "t"]; EvIsDir [lit "t"; lit "f"]]).
Proof. repeat split; vm_compute; reflexivity. Qed.

(** C10, amended.  For a root whose entries can be listed and whose kept
    entries can each be examined, the walk with [max_depth = 0] returns:
    the children of the root are its kept entries, each with empty
    children, and every query is made of the root or of one of its direct
    entries. *)
Theorem depth_zero_lists_root_only fs fuel r ex p names :
  validate_root fs r = Ok (Directory p []) ->
  fs_iterdir fs p = Ok names ->
  let self := {| root := Directory p []; max_depth := Some 0%Z;
                 exclude := match ex with Some l => l | None => [] end |} in
  Forall (fun entry => examinable fs entry = true) (kept_entries self p names) ->
  exists cs tr',
    build_tree fs (S fuel) r (Some 0%Z) ex [] = (Ok (Directory p cs), tr')
    /\ map item_path cs = kept_entries self p names
    /\ Forall (fun c => children_of c = []) cs
    /\ Forall (fun e => event_path e = p
                        \/ exists n, In n names /\ event_path e = Path.child p n) tr'.
Proof.
  intros Hr Hnames self Hex.
  assert (Hbreak : break_condition self 0%Z = false) by reflexivity.
  set (process := fun entry => process_item fs (traverse_tree fs fuel self) self entry 0%Z).
  destruct (@traverse_loop_total process (sorted (map (Path.child p) names))) with
    (p := p) (cs := @nil Item) (tr := [] ++ [EvIterdir p]) as (root' & tr' & E).
  { intros entry tr Hin. unfold process.
    apply process_item_cut_returns; [exact Hbreak|].
    destruct (skipped self entry) eqn:Hskip; [now left|right].
    rewrite Forall_forall in Hex. apply Hex. unfold kept_entries.
    apply filter_In. split; [exact Hin|]. now rewrite Hskip. }
  assert (Hrun : build_tree fs (S fuel) r (Some 0%Z) ex [] = (Ok root', tr')).
  { erewrite build_tree_unfold by exact Hr. fold self.
    cbn [traverse_tree]. unfold bind at 1. unfold iterdir. cbn [item_path].
    rewrite Hnames. exact E. }
  rewrite Hrun. clear Hrun.
  apply traverse_loop_inv with
    (Good := fun c => children_of c = [])
    (EvGood := fun entry e => event_path e = entry)
    (skip := skipped self) in E.
  - destruct E as (new & -> & Hev & Hres).
    destruct (Hres root' eq_refl) as (cs & -> & Hmap & Hcs).
    exists cs. eexists. split; [reflexivity|]. repeat split; auto.
    simpl. constructor; [auto|].
    eapply Forall_impl; [|exact Hev]. intros e (entry & Hin & He). right.
    apply sorted_In, in_map_iff in Hin. destruct Hin as (n & <- & Hn). eauto.
  - intros entry _ tr res tr0 Hp. unfold process in Hp.
    destruct (@process_item_cut fs self (traverse_tree fs fuel self) 0%Z entry tr Hbreak)
      as (res0 & new & Eo & Hev & Ho).
    rewrite Eo in Hp. inversion Hp; subst. exists new. repeat split; auto.
Qed.

Lemma depth_zero_lists_root_only_witness :
  exists cs tr',
    build_tree (mount disk_t []) 1 (RootStr (lit "/t")) (Some 0%Z) None []
      = (Ok (Directory [lit "t"] cs), tr')
    /\ map item_path cs
       = kept_entries (Build_Tree (Directory [lit "t"] []) (Some 0%Z) [])
           [lit "t"] [lit "y.txt"; lit "sub"]
    /\ Forall (fun c => children_of c = []) cs
    /\ Forall (fun e => event_path e = [lit "t"]
                        \/ exists n, In n [lit "y.txt"; lit "sub"]
                                     /\ event_path e = Path.child [lit "t"] n) tr'.
Proof.
  refine (@depth_zero_lists_root_only (mount disk_t []) 0 (RootStr (lit "/t")) None
            [lit "t"] [lit "y.txt"; lit "sub"] _ _ _).
  - vm_compute. reflexivity.
  - vm_compute. reflexivity.
  - vm_compute. repeat constructor.
Defined.

(** * Further facts about the walker *)

Section LoopFacts.

Variable process : Path.t -> M (option Item).

(** The loop keeps the children the directory has and appends to them. *)
Lemma traverse_loop_appends entries : forall p a tr r tr',
  traverse_loop process (Directory p a) entries tr = (Ok r, tr') ->
  exists new, r = Directory p (a ++ new).
Proof.
  induction entries as [|entry rest IH]; intros p a tr r tr' H; simpl in H.
  - unfold ret in H. inversion H; subst. exists []. now rewrite app_nil_r.
  - unfold bind in H. destruct (process entry tr) as [[[it|]|e] tr1]; try discriminate.
    + unfold lift, append_child in H. apply IH in H. destruct H as (new & ->).
      exists (it :: new). now rewrite <- app_assoc.
    + now apply IH in H.
Qed.

(** What the loop appends does not depend on what the directory holds. *)
Lemma traverse_loop_independent entries : forall p a b new tr tr',
  traverse_loop process (Directory p a) entries tr = (Ok (Directory p (a ++ new)), tr') ->
  traverse_loop process (Directory p b) entries tr = (Ok (Directory p (b ++ new)), tr').
Proof.
  induction entries as [|entry rest IH]; intros p a b new tr tr' H; simpl in *.
  - unfold ret in *. inversion H as [[E Et]].
    assert (new = []).
    { rewrite <- (app_nil_r a) in E at 1. now apply app_inv_head in E. }
    subst. now rewrite app_nil_r.
  - unfold bind in *. destruct (process entry tr) as [[[it|]|e] tr1]; try discriminate.
    + unfold lift, append_child in *.
      destruct (traverse_loop_appends _ _ _ _ H) as (new' & E).
      inversion E as [E']. rewrite <- app_assoc in E'. apply app_inv_head in E'.
      simpl in E'. subst new.
      replace (a ++ it :: new') with ((a ++ [it]) ++ new') in H
        by now rewrite <- app_assoc.
      apply IH with (b := b ++ [it]) in H. rewrite H. now rewrite <- app_assoc.
    + eapply IH; eauto.
Qed.

(** An exception of the loop is an exception of one of its turns. *)
Lemma traverse_loop_raises entries : forall p a tr e tr',
  traverse_loop process (Directory p a) entries tr = (Raise e, tr') ->
  exists entry tr0 tr1, In entry entries /\ process entry tr0 = (Raise e, tr1).
Proof.
  induction entries as [|entry rest IH]; intros p a tr e tr' H; simpl in H.
  - discriminate.
  - unfold bind in H. destruct (process entry tr) as [[[it|]|e0] tr1] eqn:E.
    + unfold lift, append_child in H. apply IH in H.
      destruct H as (x & t0 & t1 & Hin & Hx). exists x, t0, t1. simpl; auto.
    + apply IH in H. destruct H as (x & t0 & t1 & Hin & Hx).
      exists x, t0, t1. simpl; auto.
    + inversion H; subst. exists entry, tr, tr'. simpl; auto.
Qed.

(** The queries of the loop are those of its turns. *)
Lemma traverse_loop_events (P : event -> Prop) entries :
  (forall entry, In entry entries -> forall tr res tr',
     process entry tr = (res, tr') -> exists new, tr' = tr ++ new /\ Forall P new) ->
  forall root tr res tr',
    traverse_loop process root entries tr = (res, tr') ->
    exists new, tr' = tr ++ new /\ Forall P new.
Proof.
  induction entries as [|entry rest IH]; intros Hp root tr res tr' H; simpl in H.
  - unfold ret in H. inversion H; subst. exists []. now rewrite app_nil_r.
  - unfold bind in H. destruct (process entry tr) as [res1 tr1] eqn:E.
    destruct (Hp entry (or_introl eq_refl) _ _ _ E) as (new1 & -> & H1).
    assert (Hrest : forall x, In x rest -> forall tr res tr',
              process x tr = (res, tr') -> exists new, tr' = tr ++ new /\ Forall P new).
    { intros x Hx. apply Hp. simpl; auto. }
    destruct res1 as [[it|]|e].
    + unfold lift in H. destruct (append_child root it) as [root'|e].
      * apply (IH Hrest) in H. destruct H as (new2 & -> & H2).
        exists (new1 ++ new2). rewrite app_assoc. split; auto. apply Forall_app; auto.
      * inversion H; subst. eauto.
    + apply (IH Hrest) in H. destruct H as (new2 & -> & H2).
      exists (new1 ++ new2). rewrite app_assoc. split; auto. apply Forall_app; auto.
    + inversion H; subst. eauto.
Qed.

End LoopFacts.

Lemma traverse_loop_ext (f g : Path.t -> M (option Item)) entries :
  (forall entry tr, f entry tr = g entry tr) ->
  forall root tr, traverse_loop f root entries tr = traverse_loop g root entries tr.
Proof.
  intros Hfg. induction entries as [|entry rest IH]; intros root tr; simpl.
  - reflexivity.
  - unfold bind. rewrite Hfg. destruct (g entry tr) as [[[it|]|e] tr1]; auto.
    unfold lift. destruct (append_child root it); auto.
Qed.

Section WalkFacts.

Variable fs : FileSystem.

(** An exception of [process_item] is one of the call of [traverse_tree]
    it makes for a directory, or what a query of the entry raised. *)
Lemma process_item_raises self (rec : Item -> Z -> M Item) d entry tr e tr' :
  process_item fs rec self entry d tr = (Raise e, tr') ->
  skipped self entry = false
  /\ ((fs_is_dir fs entry = Ok true /\ break_condition self d = true
       /\ exists tr0 tr1, rec (Directory entry []) (d + 1)%Z tr0 = (Raise e, tr1))
      \/ fs_is_dir fs entry = Raise e
      \/ (fs_is_dir fs entry = Ok false /\ fs_is_symlink fs entry = Raise e)
      \/ (fs_is_dir fs entry = Ok false /\ fs_is_symlink fs entry = Ok true
          /\ fs_readlink fs entry = Raise e)).
Proof.
  intros H. unfold process_item, bind, lift in H. rewrite skip_condition_ok in H.
  destruct (skipped self entry) eqn:Hskip; [discriminate|]. split; [reflexivity|].
  unfold is_dir in H. destruct (fs_is_dir fs entry) as [[|]|e0].
  - destruct (break_condition self d); [|discriminate]. left.
    destruct (rec (Directory entry []) (d + 1)%Z (tr ++ [EvIsDir entry]))
      as [[r|e1] tr2] eqn:E; [discriminate|].
    inversion H; subst. eauto 6.
  - unfold is_symlink in H. destruct (fs_is_symlink fs entry) as [[|]|e0].
    + unfold readlink in H. destruct (fs_readlink fs entry) as [t|e0];
        [discriminate|]. inversion H; subst. auto 6.
    + discriminate.
    + inversion H; subst. auto.
  - inversion H; subst. auto.
Qed.

(** An exception of the walk is the [RecursionError] of the interpreter or
    what a query raised for a path the walk has reached. *)
Lemma traverse_tree_raises self fuel : forall p cs d tr e tr',
  traverse_tree fs fuel self (Directory p cs) d tr = (Raise e, tr') ->
  e = RecursionError
  \/ exists q, reach self p q /\ raised_by fs p q e.
Proof.
  induction fuel as [|fuel IH]; intros p cs d tr e tr' H; simpl in H.
  - unfold raise in H. inversion H. auto.
  - unfold bind at 1 in H. unfold iterdir in H. cbn [item_path] in H.
    destruct (fs_iterdir fs p) as [names|e0] eqn:Hnames.
    + apply traverse_loop_raises in H.
      destruct H as (entry & tr0 & tr1 & Hin & H).
      apply sorted_In, in_map_iff in Hin. destruct Hin as (n & <- & _).
      apply process_item_raises in H. destruct H as (Hskip & H).
      assert (Hchild : reach self p (Path.child p n)).
      { eapply reach_child; eauto. apply reach_refl. }
      unfold raised_by.
      destruct H as [(Hdir & _ & tr2 & tr3 & E)|H].
      * apply IH in E. destruct E as [E|(q & Hq & E)]; auto.
        right. exists q. split; [eapply reach_child; eauto|].
        unfold raised_by in E. destruct E as [([->|Hq'] & E)|E]; auto.
      * right. exists (Path.child p n). split; auto.
    + inversion H; subst. right. exists p. split; [apply reach_refl|].
      left. auto.
Qed.

(** Under a depth limit, a walk that is allowed more levels of recursion
    than the limit does not run out of them. *)
Lemma traverse_tree_within_limit self k fuel : forall p cs d tr e tr',
  max_depth self = Some k ->
  (Z.max 0 (k - d) < Z.of_nat fuel)%Z ->
  traverse_tree fs fuel self (Directory p cs) d tr = (Raise e, tr') ->
  exists q, reach self p q /\ raised_by fs p q e.
Proof.
  induction fuel as [|fuel IH]; intros p cs d tr e tr' Hk Hfuel H; simpl in H.
  - lia.
  - unfold bind at 1 in H. unfold iterdir in H. cbn [item_path] in H.
    destruct (fs_iterdir fs p) as [names|e0] eqn:Hnames.
    + apply traverse_loop_raises in H.
      destruct H as (entry & tr0 & tr1 & Hin & H).
      apply sorted_In, in_map_iff in Hin. destruct Hin as (n & <- & _).
      apply process_item_raises in H. destruct H as (Hskip & H).
      assert (Hchild : reach self p (Path.child p n)).
      { eapply reach_child; eauto. apply reach_refl. }
      unfold raised_by.
      destruct H as [(Hdir & Hb & tr2 & tr3 & E)|H].
      * unfold break_condition in Hb. rewrite Hk in Hb. apply Z.ltb_lt in Hb.
        apply IH in E; auto; [|lia]. destruct E as (q & Hq & E).
        exists q. split; [eapply reach_child; eauto|].
        unfold raised_by in E. destruct E as [([->|Hq'] & E)|E]; auto.
      * exists (Path.child p n). split; auto.
    + inversion H; subst. exists p. split; [apply reach_refl|].
      left. auto.
Qed.

(** The walk depends on the tree object through the answers of
    [skip_condition] and through those of [break_condition] from the
    current depth on. *)
Lemma traverse_tree_ext self self' fuel : forall root d tr,
  (forall item, skip_condition self item = skip_condition self' item) ->
  (forall d', (d <= d')%Z -> break_condition self d' = break_condition self' d') ->
  traverse_tree fs fuel self root d tr = traverse_tree fs fuel self' root d tr.
Proof.
  induction fuel as [|fuel IH]; intros root d tr Hex Hb; simpl.
  - reflexivity.
  - unfold bind. destruct (iterdir fs (item_path root) tr) as [[entries|e] tr1]; auto.
    apply traverse_loop_ext. intros entry tr0.
    unfold process_item, bind, lift. rewrite Hex.
    destruct (skip_condition self' entry) as [[|]|e]; auto.
    destruct (is_dir fs entry tr0) as [[[|]|e] tr2]; auto.
    rewrite <- (Hb d) by lia. destruct (break_condition self d); auto.
    rewrite IH; auto. intros d' Hd'. apply Hb. lia.
Qed.

(** The queries of the walk follow the answers it has got. *)
Lemma traverse_tree_justified self fuel : forall root d tr res tr',
  traverse_tree fs fuel self root d tr = (res, tr') ->
  exists new, tr' = tr ++ new /\ Forall (justified fs (item_path root)) new.
Proof.
  induction fuel as [|fuel IH]; intros root d tr res tr' H; simpl in H.
  - unfold raise in H. inversion H; subst. exists []. now rewrite app_nil_r.
  - unfold bind at 1 in H. unfold iterdir in H.
    assert (Hself : justified fs (item_path root) (EvIterdir (item_path root)))
      by (simpl; auto).
    destruct (fs_iterdir fs (item_path root)) as [names|e0].
    + apply traverse_loop_events with
        (P := fun e => justified fs (item_path root) e) in H.
      * destruct H as (new & -> & Hnew). exists (EvIterdir (item_path root) :: new).
        rewrite <- app_assoc. split; auto.
      * intros entry _ tr0 res0 tr0' H0.
        unfold process_item, bind, lift in H0. rewrite skip_condition_ok in H0.
        destruct (skipped self entry).
        { unfold ret in H0. inversion H0; subst. exists []. now rewrite app_nil_r. }
        unfold is_dir in H0. destruct (fs_is_dir fs entry) as [[|]|e1] eqn:Hdir.
        -- destruct (break_condition self d).
           ++ destruct (traverse_tree fs fuel self (Directory entry []) (d + 1)
                          (tr0 ++ [EvIsDir entry])) as [res1 tr2] eqn:E.
              apply IH in E. destruct E as (new1 & -> & Hnew1).
              exists (EvIsDir entry :: new1). split.
              { destruct res1; unfold ret in H0; inversion H0; now rewrite <- app_assoc. }
              constructor; [exact I|].
              eapply Forall_impl; [|exact Hnew1].
              intros [q|q|q|q]; simpl; auto. intros [->|Hq]; auto.
           ++ unfold ret in H0. inversion H0; subst. exists [EvIsDir entry].
              split; auto. repeat constructor.
        -- unfold is_symlink in H0.
           destruct (fs_is_symlink fs entry) as [[|]|e1] eqn:Hlink.
           ++ unfold readlink, ret in H0.
              exists [EvIsDir entry; EvIsSymlink entry; EvReadlink entry].
              split.
              { destruct (fs_readlink fs entry); inversion H0;
                  now rewrite <- !app_assoc. }
              repeat constructor; auto.
           ++ unfold ret in H0. inversion H0; subst.
              exists [EvIsDir entry; EvIsSymlink entry].
              rewrite <- !app_assoc. split; auto. repeat constructor; auto.
           ++ inversion H0; subst.
              exists [EvIsDir entry; EvIsSymlink entry].
              rewrite <- !app_assoc. split; auto. repeat constructor; auto.
        -- inversion H0; subst. exists [EvIsDir entry].
           split; auto. repeat constructor.
    + inversion H; subst. exists [EvIterdir (item_path root)]. split; auto.
Qed.

Lemma oblivious_bind {A B} (m : M A) (k : A -> M B) :
  oblivious m -> (forall a, oblivious (k a)) -> oblivious (bind m k).
Proof.
  intros Hm Hk tr. unfold bind. rewrite (Hm tr).
  destruct (m []) as [[a|e] s]; cbn [fst snd].
  - cbn [app]. rewrite (Hk a (tr ++ s)), (Hk a s). cbn [fst snd].
    now rewrite <- app_assoc.
  - reflexivity.
Qed.

Lemma oblivious_ret {A} (a : A) : oblivious (ret a).
Proof. intros tr. unfold ret. cbn. now rewrite app_nil_r. Qed.

Lemma oblivious_lift {A} (r : result A) : oblivious (lift r).
Proof. intros tr. unfold lift. cbn. now rewrite app_nil_r. Qed.

Lemma oblivious_loop (process : Path.t -> M (option Item)) entries :
  (forall entry, oblivious (process entry)) ->
  forall root, oblivious (traverse_loop process root entries).
Proof.
  intros Hp. induction entries as [|entry rest IH]; intros root; cbn [traverse_loop].
  - apply oblivious_ret.
  - apply oblivious_bind; auto. intros [it|]; auto.
    apply oblivious_bind; auto using oblivious_lift.
Qed.

(** The walk does not read the trace. *)
Lemma oblivious_traverse_tree self fuel : forall root d,
  oblivious (traverse_tree fs fuel self root d).
Proof.
  induction fuel as [|fuel IH]; intros root d; cbn [traverse_tree].
  - intros tr. unfold raise. cbn. now rewrite app_nil_r.
  - apply oblivious_bind.
    + intros tr. unfold iterdir. destruct (fs_iterdir fs (item_path root)); reflexivity.
    + intros entries. apply oblivious_loop. intros entry. unfold process_item.
      apply oblivious_bind; [apply oblivious_lift|]. intros [|]; [apply oblivious_ret|].
      apply oblivious_bind; [intros tr; reflexivity|]. intros [|].
      * destruct (break_condition self d); [|apply oblivious_ret].
        apply oblivious_bind; auto. intros a. apply oblivious_ret.
      * apply oblivious_bind; [intros tr; reflexivity|]. intros [|]; [|apply oblivious_ret].
        apply oblivious_bind; [intros tr; reflexivity|]. intros a. apply oblivious_ret.
Qed.

End WalkFacts.

Lemma skip_loop_same_patterns l l' item :
  (forall pattern, In pattern l <-> In pattern l') ->
  skip_loop l item = skip_loop l' item.
Proof.
  intros H.
  destruct (skip_loop_total l item) as (b & E), (skip_loop_total l' item) as (b' & E').
  rewrite E, E'. f_equal.
  assert (Hiff : skip_loop l item = Ok true <-> skip_loop l' item = Ok true).
  { rewrite !skip_loop_true. split; intros (q & Hq & Hm); exists q; split; auto;
      now apply H. }
  rewrite E, E' in Hiff. destruct b, b'; auto.
  - destruct Hiff as [Hi _]. specialize (Hi eq_refl). congruence.
  - destruct Hiff as [_ Hi]. specialize (Hi eq_refl). congruence.
Qed.

(** The runs of [main] over roots that follow each other. *)
Lemma main_loop_sequence fs fuel depth exclude a : forall b tr out,
  main_loop fs fuel (a ++ b) depth exclude tr out
  = match main_loop fs fuel a depth exclude tr out with
    | (Ok _, tr1, out1) => main_loop fs fuel b depth exclude tr1 out1
    | failed => failed
    end.
Proof.
  induction a as [|root_dir a IH]; intros b tr out; simpl.
  - reflexivity.
  - destruct (main_one fs fuel root_dir depth exclude tr) as [[[built text]|e] tr1].
    + apply IH.
    + reflexivity.
Qed.

(** * Further facts about fnmatch, [sorted] and the renderer *)

Lemma re_match_star ms s :
  Fnmatch.re_match (Fnmatch.MStar :: ms) s
  = Fnmatch.re_match ms s
    || match s with
       | [] => false
       | _ :: s' => Fnmatch.re_match (Fnmatch.MStar :: ms) s'
       end.
Proof. destruct s; reflexivity. Qed.

Lemma re_match_only_star s : Fnmatch.re_match [Fnmatch.MStar] s = true.
Proof.
  induction s as [|c s IH]; rewrite re_match_star.
  - reflexivity.
  - rewrite IH. apply orb_true_r.
Qed.

Lemma re_match_literals_star w : forall s,
  Fnmatch.re_match (map Fnmatch.MChar w ++ [Fnmatch.MStar]) s = starts_with w s.
Proof.
  induction w as [|a w IH]; intros s.
  - simpl app. rewrite re_match_only_star. now destruct s.
  - destruct s as [|c s]; [reflexivity|].
    cbn [map app Fnmatch.re_match Fnmatch.match_char starts_with].
    now rewrite IH, N.eqb_sym.
Qed.

(** A literal between two stars matches the names in which it occurs. *)
Lemma re_match_star_literals_star w : forall s,
  Fnmatch.re_match (Fnmatch.MStar :: map Fnmatch.MChar w ++ [Fnmatch.MStar]) s
  = occurs w s.
Proof.
  induction s as [|c s IH]; rewrite re_match_star, re_match_literals_star.
  - now destruct w.
  - rewrite IH. reflexivity.
Qed.

Lemma insert_perm x l : Permutation (insert x l) (x :: l).
Proof.
  induction l as [|y l IH]; simpl.
  - apply Permutation_refl.
  - destruct (Path.ltb y x).
    + eapply perm_trans; [apply perm_skip, IH|apply perm_swap].
    + apply Permutation_refl.
Qed.

(** [sorted] returns the elements it is given, each as often. *)
Lemma sorted_perm l : Permutation (sorted l) l.
Proof.
  induction l as [|x l IH]; simpl.
  - constructor.
  - eapply perm_trans; [apply insert_perm|]. now apply perm_skip.
Qed.

Lemma filter_perm {A} (f : A -> bool) l l' :
  Permutation l l' -> Permutation (filter f l) (filter f l').
Proof.
  induction 1 as [|x l l' _ IH|x y l|l l' l'' _ IH1 _ IH2]; simpl.
  - constructor.
  - destruct (f x); auto.
  - destruct (f x), (f y); auto using Permutation_refl. apply perm_swap.
  - eapply perm_trans; eauto.
Qed.

(** The names of the kept entries are the listed names that no pattern
    matches, each as often as it is listed. *)
Lemma kept_entries_names self p names :
  Permutation (map Path.name (kept_entries self p names))
              (filter (fun n => negb (skipped self [n])) names).
Proof.
  unfold kept_entries.
  eapply perm_trans.
  { apply Permutation_map, filter_perm, sorted_perm. }
  assert (E : map Path.name
                (filter (fun q => negb (skipped self q)) (map (Path.child p) names))
              = filter (fun n => negb (skipped self [n])) names).
  { induction names as [|n names IH]; simpl; auto.
    rewrite skipped_child. destruct (skipped self [n]); simpl.
    - exact IH.
    - now rewrite name_child, IH. }
  rewrite E. apply Permutation_refl.
Qed.

Lemma height_Directory_le p cs n :
  Forall (fun c => (S (height c) <= n)%nat) cs -> (height (Directory p cs) <= n)%nat.
Proof.
  cbn [height]. induction 1 as [|c cs Hc _ IH].
  - lia.
  - apply Nat.max_lub; auto.
Qed.

(** Under the limit [k], an item made at depth [d] has at most [k - d]
    levels below it. *)
Lemma built_height fs self k it : max_depth self = Some k ->
  forall d, built fs self d it -> (height it <= Z.to_nat (k - d))%nat.
Proof.
  intros Hk. induction it as [p|p t|p cs IH] using Item_nested_ind; intros d Hb;
    try (simpl; lia).
  destruct Hb as (_ & _ & Hb). unfold break_condition in Hb. rewrite Hk in Hb.
  destruct (d <? k)%Z eqn:Hd.
  - apply Z.ltb_lt in Hd. destruct Hb as (names & _ & _ & Hall).
    apply built_all in Hall. apply height_Directory_le.
    rewrite Forall_forall in *. intros c Hc.
    specialize (IH c Hc (d + 1)%Z (Hall c Hc)). lia.
  - subst cs. simpl. lia.
Qed.

Lemma rows_Directory_cons p child later :
  rows (Directory p (child :: later))
  = (connector_for later ++ lit " " ++ display_name child ++ annotation child)
    :: map (app (extension_for later)) (rows child) ++ rows (Directory p later).
Proof. reflexivity. Qed.

Lemma items_below_Directory_cons p child later :
  items_below (Directory p (child :: later))
  = child :: items_below child ++ items_below (Directory p later).
Proof. reflexivity. Qed.

(** The text of [draw] is its rows, each behind the prefix and before a
    newline. *)
Lemma draw_rows item : forall prefix is_last,
  draw item prefix is_last
  = concat (map (fun row => prefix ++ row ++ NEWLINE) (rows item)).
Proof.
  induction item as [p|p t|p cs IH] using Item_nested_ind; intros prefix is_last;
    try reflexivity.
  rewrite draw_Directory, (draw_loop_render (length cs) prefix cs 0%Z) by lia.
  induction IH as [|child later Hchild _ IHlater].
  - reflexivity.
  - rewrite rows_Directory_cons. cbn [render_children map concat].
    rewrite map_app, concat_app, map_map, IHlater, Hchild.
    rewrite <- !app_assoc. do 6 f_equal. f_equal. f_equal. apply map_ext.
    intros row. now rewrite <- !app_assoc.
Qed.

(** The rows of an item show the items below it, one by one, parents
    before what they hold. *)
Lemma rows_show item : Forall2 shows (items_below item) (rows item).
Proof.
  induction item as [p|p t|p cs IH] using Item_nested_ind; try constructor.
  induction IH as [|child later Hchild _ IHlater]; [constructor|].
  rewrite rows_Directory_cons, items_below_Directory_cons.
  constructor.
  - exists [], (connector_for later), 0%nat. repeat split.
    unfold connector_for. destruct (is_nil later); auto.
  - apply Forall2_app; [|exact IHlater].
    clear IHlater. induction Hchild as [|x row xs rws Hx _ IHrows]; constructor; auto.
    destruct Hx as (indent & connector & k & -> & Hc & Hk).
    exists (extension_for later ++ indent), connector, (S k).
    split; [now rewrite <- app_assoc|]. split; auto.
    rewrite length_app, Hk. unfold extension_for.
    destruct (is_nil later); simpl; lia.
Qed.

(** * Further properties *)

(** ** Item.__repr__ *)

(** X1.  For a [Link], the [__repr__] that the class [Link] defines returns
    the text that the [__repr__] of [Item] would return for it. *)
Theorem link_repr_agrees path target :
  Item_repr (Link path target) = Ok (Link_repr path target).
Proof.
  unfold Item_repr, Link_repr. cbn [Item_type is_file is_link rbind item_name item_path].
  f_equal. change (capitalize (ItemType.value ItemType.LINK)) with (lit "Link").
  rewrite <- !app_assoc. reflexivity.
Qed.

(** ** get_args and main *)

(** X2.  When no [-e] option is given, [get_args] supplies the patterns
    [__pycache__], [*venv*] and [.git], and with them an entry is skipped
    exactly when its name is [__pycache__], holds [venv] anywhere, or is
    [.git].  Patterns that are given are passed on as they are, without
    the three. *)
Theorem default_exclusions parsed cwd :
  (args_exclude parsed <> [] ->
   args_exclude (get_args parsed cwd) = args_exclude parsed)
  /\ (args_exclude parsed = [] ->
      forall self item,
        exclude self = args_exclude (get_args parsed cwd) ->
        skip_condition self item
        = Ok (Str.eqb (Path.name item) (lit "__pycache__")
              || occurs (lit "venv") (Path.name item)
              || Str.eqb (Path.name item) (lit ".git"))).
Proof.
  split.
  - intros H. unfold get_args. cbn [args_exclude].
    destruct (args_exclude parsed); [contradiction|reflexivity].
  - intros H self item Hex. unfold skip_condition. rewrite Hex.
    unfold get_args. cbn [args_exclude]. rewrite H. cbn [is_nil app skip_loop].
    set (n := Path.name item).
    assert (E1 : Fnmatch.fnmatch n (lit "__pycache__")
                 = Ok (Str.eqb n (lit "__pycache__"))).
    { apply FnmatchFacts.fnmatch_plain. repeat constructor; discriminate. }
    assert (E3 : Fnmatch.fnmatch n (lit ".git") = Ok (Str.eqb n (lit ".git"))).
    { apply FnmatchFacts.fnmatch_plain. repeat constructor; discriminate. }
    assert (E2 : Fnmatch.fnmatch n (lit "*venv*") = Ok (occurs (lit "venv") n)).
    { unfold Fnmatch.fnmatch.
      change (Fnmatch.translate (lit "*venv*"))
        with (Ok (Fnmatch.STAR :: map Fnmatch.Literal (lit "venv") ++ [Fnmatch.STAR])).
      cbn [rbind].
      change (Fnmatch.re_compile
                (Fnmatch.STAR :: map Fnmatch.Literal (lit "venv") ++ [Fnmatch.STAR]))
        with (Ok (Fnmatch.MStar :: map Fnmatch.MChar (lit "venv") ++ [Fnmatch.MStar])).
      cbn [rbind]. now rewrite re_match_star_literals_star. }
    rewrite E1. cbn [rbind]. destruct (Str.eqb n (lit "__pycache__")); [reflexivity|].
    rewrite E2. cbn [rbind]. destruct (occurs (lit "venv") n); [reflexivity|].
    rewrite E3. cbn [rbind]. destruct (Str.eqb n (lit ".git")); reflexivity.
Qed.

Lemma default_exclusions_witness :
  skip_condition
    {| root := tree_t; max_depth := None;
       exclude := args_exclude (get_args (Build_Args None [] []) (lit "/t")) |}
    [lit "t"; lit "myvenv2"] = Ok true
  /\ args_exclude (get_args (Build_Args None [] [lit "*.txt"]) (lit "/t"))
     = [lit "*.txt"].
Proof.
  split.
  - exact (proj2 (default_exclusions (Build_Args None [] []) (lit "/t")) eq_refl
             {| root := tree_t; max_depth := None;
                exclude := args_exclude (get_args (Build_Args None [] []) (lit "/t")) |}
             [lit "t"; lit "myvenv2"] eq_refl).
  - apply (proj1 (default_exclusions (Build_Args None [] [lit "*.txt"]) (lit "/t"))).
    discriminate.
Defined.

(** X3.  [main] takes the roots from left to right: the run over the roots
    [a] followed by the roots [b] is the run over [a] and, when that run
    ends without an exception, the run over [b] from the queries and the
    text it has left; an exception in the run over [a] is the outcome. *)
Theorem main_loop_app fs fuel depth exclude a : forall b tr out,
  main_loop fs fuel (a ++ b) depth exclude tr out
  = match main_loop fs fuel a depth exclude tr out with
    | (Ok _, tr1, out1) => main_loop fs fuel b depth exclude tr1 out1
    | failed => failed
    end.
Proof. apply main_loop_sequence. Qed.

(** X4.  When the walk of a root raises, [main] ends there: the exception
    is the outcome, the text of the roots before it stays written, and
    the roots after it are not looked at. *)
Theorem main_stops_at_first_error fs fuel depth exclude before bad after
    tr out tr1 out1 e tr2 :
  main_loop fs fuel before depth exclude tr out = (Ok tt, tr1, out1) ->
  main_one fs fuel bad depth exclude tr1 = (Raise e, tr2) ->
  main_loop fs fuel (before ++ bad :: after) depth exclude tr out
  = (Raise e, tr2, out1).
Proof.
  intros Hb Hbad. rewrite main_loop_sequence, Hb. simpl. now rewrite Hbad.
Qed.

Lemma main_stops_at_first_error_witness :
  main (DiskFS.mount disk_two []) 10
    (Build_Args None [lit "/a"; lit "/nope"; lit "/b"] [])
  = (Raise (OSError [lit "nope"]),
     [EvIterdir [lit "a"]; EvIsDir [lit "a"; lit "x"]; EvIsSymlink [lit "a"; lit "x"];
      EvIterdir [lit "nope"]],
     lit "a/" ++ NEWLINE ++ value LAST ++ lit " x" ++ NEWLINE).
Proof.
  refine (@main_stops_at_first_error (DiskFS.mount disk_two []) 10 None []
            [lit "/a"] (lit "/nope") [lit "/b"] [] []
            [EvIterdir [lit "a"]; EvIsDir [lit "a"; lit "x"];
             EvIsSymlink [lit "a"; lit "x"]]
            _ _ _ _ _).
  - vm_compute. reflexivity.
  - vm_compute. reflexivity.
Defined.

(** X5.  An exception raised while [main] builds the tree of a root,
    before anything is drawn, is what [Path.resolve] raised for the root,
    what a query of the file system ([iterdir], [is_dir], [is_symlink] or
    [os.readlink]) raised for a path that the walk reached from the
    resolved root, or the [RecursionError] of the interpreter; the
    [ValueError] of [validate_root] is never the outcome. *)
Theorem main_build_raises fs fuel root_dir depth exclude tr e tr' :
  main_build fs fuel root_dir depth exclude tr = (Raise e, tr') ->
  fs_resolve fs root_dir = Raise e
  \/ e = RecursionError
  \/ exists p q,
       fs_resolve fs root_dir = Ok p
       /\ reach {| root := Directory p []; max_depth := depth; exclude := exclude |} p q
       /\ raised_by fs p q e.
Proof.
  unfold main_build, bind, lift, Directory_of_str, rbind.
  destruct (fs_resolve fs root_dir) as [p|e0].
  - intros H. right.
    erewrite build_tree_unfold in H by reflexivity.
    apply traverse_tree_raises in H.
    destruct H as [H|(q & Hq & H)]; eauto 6.
  - intros H. inversion H; subst. auto.
Qed.

Lemma main_build_raises_witness :
  fs_resolve (DiskFS.mount Examples.disk_listed []) (lit "/t")
    = Raise (OSError [lit "t"; lit "f"])
  \/ OSError [lit "t"; lit "f"] = RecursionError
  \/ exists p q,
       fs_resolve (DiskFS.mount Examples.disk_listed []) (lit "/t") = Ok p
       /\ reach {| root := Directory p []; max_depth := None; exclude := [] |} p q
       /\ raised_by (DiskFS.mount Examples.disk_listed []) p q (OSError [lit "t"; lit "f"]).
Proof.
  apply (@main_build_raises (DiskFS.mount Examples.disk_listed []) 10 (lit "/t") None [] []
           (OSError [lit "t"; lit "f"])
           [EvIterdir [lit "t"]; EvIsDir [lit "t"; lit "f"]]).
  vm_compute. reflexivity.
Defined.

(** ** The walker *)

(** X6.  Under a depth limit [k], a walk that is allowed more levels of
    recursion than [k] returns the tree or raises what a query of the
    file system ([iterdir], [is_dir], [is_symlink] or [os.readlink])
    raised for a path it reached: it does not run out of recursion,
    whatever the file system holds. *)
Theorem depth_limit_bounds_recursion fs fuel r ex p cs k tr res tr' :
  validate_root fs r = Ok (Directory p cs) ->
  (Z.max 0 k < Z.of_nat fuel)%Z ->
  build_tree fs fuel r (Some k) ex tr = (res, tr') ->
  let self := {| root := Directory p cs; max_depth := Some k;
                 exclude := match ex with Some l => l | None => [] end |} in
  (exists root', res = Ok root')
  \/ (exists e q, res = Raise e /\ reach self p q /\ raised_by fs p q e).
Proof.
  intros Hr Hfuel H self. erewrite build_tree_unfold in H by exact Hr.
  destruct res as [root'|e]; [eauto|]. right.
  eapply traverse_tree_within_limit with (k := k) in H.
  - destruct H as (q & Hq & H). exists e, q. auto.
  - reflexivity.
  - lia.
Qed.

Lemma depth_limit_bounds_recursion_witness :
  (exists root',
     fst (build_tree (DiskFS.mount disk_loop []) 3 (RootStr (lit "/t")) (Some 2%Z) None [])
     = Ok root')
  \/ (exists e q,
        fst (build_tree (DiskFS.mount disk_loop []) 3 (RootStr (lit "/t")) (Some 2%Z) None [])
        = Raise e
        /\ reach {| root := Directory [lit "t"] []; max_depth := Some 2%Z; exclude := [] |}
             [lit "t"] q
        /\ raised_by (DiskFS.mount disk_loop []) [lit "t"] q e).
Proof.
  refine (@depth_limit_bounds_recursion (DiskFS.mount disk_loop []) 3
            (RootStr (lit "/t")) None [lit "t"] [] 2%Z [] _ _ _ _ _).
  - vm_compute. reflexivity.
  - vm_compute. reflexivity.
  - apply surjective_pairing.
Defined.

(** X7.  Under a depth limit [k], the built tree has at most [k + 1] levels
    of items below the root, one level for a limit below zero. *)
Theorem depth_limit_bounds_height fs fuel r ex p k tr root' tr' :
  validate_root fs r = Ok (Directory p []) ->
  build_tree fs fuel r (Some k) ex tr = (Ok root', tr') ->
  (height root' <= S (Z.to_nat k))%nat.
Proof.
  intros Hr H. erewrite build_tree_unfold in H by exact Hr.
  apply traverse_tree_inv in H. destruct H as (_ & _ & _ & H).
  destruct (H root' eq_refl) as (names & cs & -> & _ & _ & Hall).
  apply height_Directory_le. eapply Forall_impl; [|exact Hall].
  intros c Hc. eapply built_height with (k := k) in Hc; [|reflexivity].
  rewrite Z.sub_0_r in Hc. lia.
Qed.

Lemma depth_limit_bounds_height_witness :
  exists root',
    fst (build_tree (DiskFS.mount Examples.disk_deep []) 10 (RootStr (lit "/t"))
           (Some 1%Z) None []) = Ok root'
    /\ (height root' <= 2)%nat.
Proof.
  eexists. split.
  - vm_compute. reflexivity.
  - refine (@depth_limit_bounds_height (DiskFS.mount Examples.disk_deep []) 10
              (RootStr (lit "/t")) None [lit "t"] 1%Z [] _
              (snd (build_tree (DiskFS.mount Examples.disk_deep []) 10
                      (RootStr (lit "/t")) (Some 1%Z) None [])) _ _).
    + vm_compute. reflexivity.
    + vm_compute. reflexivity.
Defined.

(** X8.  A depth limit below zero gives the walk of the limit zero. *)
Theorem negative_depth_is_zero fs fuel r ex k tr :
  (k <= 0)%Z ->
  build_tree fs fuel r (Some k) ex tr = build_tree fs fuel r (Some 0%Z) ex tr.
Proof.
  intros Hk. unfold build_tree, bind, lift, Tree_init, rbind.
  destruct (validate_root fs r) as [self_root|e]; [|reflexivity].
  apply traverse_tree_ext; [reflexivity|].
  intros d Hd. unfold break_condition. cbn [max_depth].
  destruct (d <? k)%Z eqn:E1; destruct (d <? 0)%Z eqn:E2; auto;
    rewrite ?Z.ltb_lt, ?Z.ltb_ge in *; lia.
Qed.

Lemma negative_depth_is_zero_witness :
  build_tree (DiskFS.mount Examples.disk_t []) 10 (RootStr (lit "/t")) (Some (-3)%Z) None []
  = build_tree (DiskFS.mount Examples.disk_t []) 10 (RootStr (lit "/t")) (Some 0%Z) None [].
Proof.
  apply negative_depth_is_zero. lia.
Defined.

(** X9.  Without a depth limit, every directory item of the built tree,
    the root and those below it, holds exactly its kept entries. *)
Theorem unbounded_walk_is_exact fs fuel r ex p tr root' tr' :
  validate_root fs r = Ok (Directory p []) ->
  build_tree fs fuel r None ex tr = (Ok root', tr') ->
  let self := {| root := Directory p []; max_depth := None;
                 exclude := match ex with Some l => l | None => [] end |} in
  forall x, x = root' \/ In x (items_below root') ->
    is_directory x = true ->
    exists names, fs_iterdir fs (item_path x) = Ok names
      /\ map item_path (children_of x) = kept_entries self (item_path x) names.
Proof.
  intros Hr H self x Hx Hdir. erewrite build_tree_unfold in H by exact Hr. fold self in H.
  apply traverse_tree_inv in H. destruct H as (_ & _ & _ & H).
  destruct (H root' eq_refl) as (names & cs & -> & Hnames & Hmap & Hall).
  destruct Hx as [->|Hx].
  - exists names. auto.
  - destruct (@walked_below fs self p cs names 0%Z Hmap Hall _ Hx) as (_ & d' & Hb).
    destruct x as [q|q t|q gs]; try discriminate.
    destruct Hb as (_ & _ & names' & Hnames' & Hmap' & _). eauto.
Qed.

Lemma unbounded_walk_is_exact_witness :
  exists names,
    fs_iterdir (DiskFS.mount Examples.disk_t []) [lit "t"; lit "sub"] = Ok names
    /\ map item_path
         (children_of
            (Directory [lit "t"; lit "sub"] [File [lit "t"; lit "sub"; lit "x.txt"]]))
       = kept_entries (Build_Tree (Directory [lit "t"] []) None [])
           [lit "t"; lit "sub"] names.
Proof.
  refine (@unbounded_walk_is_exact (DiskFS.mount Examples.disk_t []) 10
            (RootStr (lit "/t")) None [lit "t"] [] Examples.tree_t
            (snd (build_tree (DiskFS.mount Examples.disk_t []) 10
                    (RootStr (lit "/t")) None None []))
            _ _
            (Directory [lit "t"; lit "sub"] [File [lit "t"; lit "sub"; lit "x.txt"]])
            _ _).
  - vm_compute. reflexivity.
  - vm_compute. reflexivity.
  - right. simpl. auto.
  - reflexivity.
Defined.

(** X10.  The kind of every item of the built tree is what the file system
    answered for its path: a [Directory] where [is_dir] holds, link or not;
    a [Link] where [is_dir] fails and [is_symlink] holds; a [File]
    where both fail. *)
Theorem item_kinds_follow_answers fs fuel self p d tr root' tr' x :
  traverse_tree fs fuel self (Directory p []) d tr = (Ok root', tr') ->
  In x (items_below root') ->
  fs_is_dir fs (item_path x) = Ok (is_directory x)
  /\ (is_link x = true <->
        fs_is_dir fs (item_path x) = Ok false
        /\ fs_is_symlink fs (item_path x) = Ok true)
  /\ (is_file x = true <->
        fs_is_dir fs (item_path x) = Ok false
        /\ fs_is_symlink fs (item_path x) = Ok false).
Proof.
  intros H Hx. apply traverse_tree_inv in H. destruct H as (_ & _ & _ & H).
  destruct (H root' eq_refl) as (names & cs & -> & _ & Hmap & Hall).
  destruct (@walked_below fs self p cs names d Hmap Hall _ Hx) as (_ & d' & Hb).
  destruct x as [q|q t|q gs]; simpl in *.
  - destruct Hb as (_ & Hd & Hl). rewrite Hd, Hl.
    split; [reflexivity|]. split; split; auto; try discriminate.
    intros (_ & E). discriminate.
  - destruct Hb as (_ & Hd & Hl & _). rewrite Hd, Hl.
    split; [reflexivity|]. split; split; auto; try discriminate.
    intros (_ & E). discriminate.
  - destruct Hb as (_ & Hd & _). rewrite Hd.
    split; [reflexivity|]. split; split; try discriminate;
      intros (E & _); discriminate.
Qed.

Lemma item_kinds_follow_answers_witness :
  fs_is_dir (DiskFS.mount Examples.disk_link []) [lit "t"; lit "l"]
  = Ok (is_directory (Directory [lit "t"; lit "l"] [File [lit "t"; lit "l"; lit "x"]]))
  /\ (is_link (Directory [lit "t"; lit "l"] [File [lit "t"; lit "l"; lit "x"]]) = true <->
        fs_is_dir (DiskFS.mount Examples.disk_link []) [lit "t"; lit "l"] = Ok false
        /\ fs_is_symlink (DiskFS.mount Examples.disk_link []) [lit "t"; lit "l"] = Ok true)
  /\ (is_file (Directory [lit "t"; lit "l"] [File [lit "t"; lit "l"; lit "x"]]) = true <->
        fs_is_dir (DiskFS.mount Examples.disk_link []) [lit "t"; lit "l"] = Ok false
        /\ fs_is_symlink (DiskFS.mount Examples.disk_link []) [lit "t"; lit "l"] = Ok false).
Proof.
  refine (@item_kinds_follow_answers (DiskFS.mount Examples.disk_link []) 10
            (Build_Tree (Directory [lit "t"] []) None []) [lit "t"] 0%Z []
            Examples.tree_link
            (snd (traverse_tree (DiskFS.mount Examples.disk_link []) 10
                    (Build_Tree (Directory [lit "t"] []) None [])
                    (Directory [lit "t"] []) 0 []))
            (Directory [lit "t"; lit "l"] [File [lit "t"; lit "l"; lit "x"]]) _ _).
  - vm_compute. reflexivity.
  - simpl. auto 10.
Defined.

(** X11.  The names of the children that [traverse_tree] appends are the
    listed names that no exclusion pattern matches, each as often as the
    listing holds it: no entry is lost, doubled or made up; names that
    differ in the listing differ among the children. *)
Theorem children_are_the_kept_names fs fuel self p d tr root' tr' :
  traverse_tree fs fuel self (Directory p []) d tr = (Ok root', tr') ->
  exists names, fs_iterdir fs p = Ok names
    /\ Permutation (map item_name (children_of root'))
                   (filter (fun n => negb (skipped self [n])) names)
    /\ (NoDup names -> NoDup (map item_name (children_of root'))).
Proof.
  intros H. apply traverse_tree_inv in H. destruct H as (_ & _ & _ & H).
  destruct (H root' eq_refl) as (names & cs & -> & Hnames & Hmap & _).
  exists names. cbn [app children_of].
  assert (Hperm : Permutation (map item_name cs)
                    (filter (fun n => negb (skipped self [n])) names)).
  { replace (map item_name cs) with (map Path.name (map item_path cs))
      by (rewrite map_map; reflexivity).
    rewrite Hmap. apply kept_entries_names. }
  repeat split; auto.
  intros Hnd. eapply Permutation_NoDup; [apply Permutation_sym, Hperm|].
  now apply NoDup_filter.
Qed.

Lemma children_are_the_kept_names_witness :
  exists names,
    fs_iterdir (DiskFS.mount Examples.disk_names []) [lit "t"] = Ok names
    /\ Permutation
         (map item_name
            (children_of
               (Directory [lit "t"]
                  [File [lit "t"; lit "A"]; File [lit "t"; lit "a1"]])))
         (filter (fun n => negb (skipped (Build_Tree (Directory [lit "t"] []) None [lit "b"]) [n]))
            names)
    /\ (NoDup names ->
        NoDup (map item_name
                 (children_of
                    (Directory [lit "t"]
                       [File [lit "t"; lit "A"]; File [lit "t"; lit "a1"]])))).
Proof.
  refine (@children_are_the_kept_names (DiskFS.mount Examples.disk_names []) 10
            (Build_Tree (Directory [lit "t"] []) None [lit "b"]) [lit "t"] 0%Z [] _
            (snd (traverse_tree (DiskFS.mount Examples.disk_names []) 10
                    (Build_Tree (Directory [lit "t"] []) None [lit "b"])
                    (Directory [lit "t"] []) 0 [])) _).
  vm_compute. reflexivity.
Defined.

(** X12.  The walk lists the root and, below it, only paths for which
    [is_dir] held; it asks [is_symlink] only where [is_dir] failed, and
    calls [readlink] only where [is_symlink] held. *)
Theorem queries_follow_answers fs fuel r depth ex p cs res tr' :
  validate_root fs r = Ok (Directory p cs) ->
  build_tree fs fuel r depth ex [] = (res, tr') ->
  Forall (justified fs p) tr'.
Proof.
  intros Hr H. erewrite build_tree_unfold in H by exact Hr.
  apply traverse_tree_justified in H. destruct H as (new & -> & H). exact H.
Qed.

Lemma queries_follow_answers_witness :
  Forall (justified (DiskFS.mount Examples.disk_link []) [lit "t"])
    (snd (build_tree (DiskFS.mount Examples.disk_link []) 10 (RootStr (lit "/t"))
            None None [])).
Proof.
  refine (@queries_follow_answers (DiskFS.mount Examples.disk_link []) 10
            (RootStr (lit "/t")) None None [lit "t"] []
            (fst (build_tree (DiskFS.mount Examples.disk_link []) 10 (RootStr (lit "/t"))
                    None None [])) _ _ _).
  - vm_compute. reflexivity.
  - apply surjective_pairing.
Defined.

(** X13.  [traverse_tree] keeps the children that the directory holds
    already and appends after them; what it appends and what it queries
    depend neither on them nor on what was queried before.  So a second
    walk of a directory that has been walked, on a file system that
    answers as before, appends every entry again. *)
Theorem walk_appends_to_children fs fuel self p a d tr r tr' :
  traverse_tree fs fuel self (Directory p a) d tr = (Ok r, tr') ->
  exists new queries,
    r = Directory p (a ++ new) /\ tr' = tr ++ queries
    /\ forall b tr0,
         traverse_tree fs fuel self (Directory p b) d tr0
         = (Ok (Directory p (b ++ new)), tr0 ++ queries).
Proof.
  intros H.
  assert (Hb : exists new, r = Directory p (a ++ new)
             /\ forall b, traverse_tree fs fuel self (Directory p b) d tr
                          = (Ok (Directory p (b ++ new)), tr')).
  { destruct fuel as [|fuel]; [discriminate|].
    cbn [traverse_tree item_path] in *. unfold bind at 1 in H.
    destruct (iterdir fs p tr) as [[entries|e] tr1] eqn:E; [|discriminate].
    destruct (traverse_loop_appends _ _ _ _ _ H) as (new & ->).
    exists new. split; [reflexivity|]. intros b. unfold bind at 1. rewrite E.
    eapply traverse_loop_independent; eauto. }
  destruct Hb as (new & -> & Hb). exists new.
  exists (snd (traverse_tree fs fuel self (Directory p a) d [])).
  split; [reflexivity|].
  pose proof (oblivious_traverse_tree fs self fuel (Directory p a) d tr) as Ha.
  rewrite H in Ha. inversion Ha as [[Hres Htr]]. split; [reflexivity|].
  intros b tr0.
  pose proof (oblivious_traverse_tree fs self fuel (Directory p b) d tr) as Hbt.
  rewrite Hb in Hbt. inversion Hbt as [[Hres' Htr']].
  rewrite (oblivious_traverse_tree fs self fuel (Directory p b) d tr0).
  rewrite <- Hres'. f_equal. f_equal.
  rewrite Htr in Htr'. now apply app_inv_head in Htr'.
Qed.

Lemma walk_appends_to_children_witness :
  exists new queries,
    Directory [lit "t"]
      [File [lit "t"; lit "A"]; File [lit "t"; lit "a1"]; File [lit "t"; lit "b"]]
    = Directory [lit "t"] ([] ++ new)
    /\ snd (traverse_tree (DiskFS.mount Examples.disk_names []) 10
              (Build_Tree (Directory [lit "t"] []) None []) (Directory [lit "t"] []) 0 [])
       = [] ++ queries
    /\ forall b tr0,
         traverse_tree (DiskFS.mount Examples.disk_names []) 10
           (Build_Tree (Directory [lit "t"] []) None []) (Directory [lit "t"] b) 0 tr0
         = (Ok (Directory [lit "t"] (b ++ new)), tr0 ++ queries).
Proof.
  refine (@walk_appends_to_children (DiskFS.mount Examples.disk_names []) 10
            (Build_Tree (Directory [lit "t"] []) None []) [lit "t"] []
            0%Z [] _ _ _).
  vm_compute. reflexivity.
Defined.

(** X14.  The order in which the exclusion patterns are given, and the
    number of times each is given, do not change the walk. *)
Theorem exclusion_order_is_irrelevant fs fuel r depth l l' tr :
  (forall pattern, In pattern l <-> In pattern l') ->
  build_tree fs fuel r depth (Some l) tr = build_tree fs fuel r depth (Some l') tr.
Proof.
  intros H. unfold build_tree, bind, lift, Tree_init, rbind.
  destruct (validate_root fs r) as [self_root|e]; [|reflexivity].
  apply traverse_tree_ext; [|reflexivity].
  intros item. unfold skip_condition. cbn [exclude]. now apply skip_loop_same_patterns.
Qed.

Lemma exclusion_order_is_irrelevant_witness :
  build_tree (DiskFS.mount Examples.disk_t []) 10 (RootStr (lit "/t")) None
    (Some [lit "*.txt"; lit "sub"]) []
  = build_tree (DiskFS.mount Examples.disk_t []) 10 (RootStr (lit "/t")) None
      (Some [lit "sub"; lit "*.txt"; lit "sub"]) [].
Proof.
  apply exclusion_order_is_irrelevant. intros pattern. simpl. tauto.
Defined.

(** X18.  Let the base name [n] of an entry match one of the exclusion
    patterns.  Whatever the outcome of the walk, no query is made of the
    entry or of a path below it, and in the built tree no item, at any
    level, has the path of the entry or a path below it.  The match looks
    at the base name alone: two paths with the same last component get the
    same answer. *)
Theorem excluded_paths_are_untouched :
  (forall fs fuel r p depth patterns res tr',
     validate_root fs r = Ok (Directory p []) ->
     build_tree fs fuel r depth (Some patterns) [] = (res, tr') ->
     forall rel n pattern more,
       In pattern patterns -> Fnmatch.fnmatch n pattern = Ok true ->
       ~ In (p ++ rel ++ n :: more) (map event_path tr')
       /\ forall root', res = Ok root' ->
            ~ In (p ++ rel ++ n :: more) (map item_path (items_below root')))
  /\ (forall self a b,
        Path.name a = Path.name b -> skip_condition self a = skip_condition self b).
Proof.
  split.
  - intros fs fuel r p depth patterns res tr' Hr H rel n pattern more Hin Hm.
    erewrite build_tree_unfold in H by exact Hr.
    set (self := {| root := Directory p []; max_depth := depth; exclude := patterns |}) in *.
    assert (Hs : skipped self [n] = true).
    { eapply skipped_by_pattern; eauto. }
    apply traverse_tree_inv in H. destruct H as (new & -> & Hev & H).
    split.
    + simpl. intros Habs. apply in_map_iff in Habs. destruct Habs as (e & Ee & He).
      rewrite Forall_forall in Hev. specialize (Hev e He). rewrite Ee in Hev.
      now apply reach_excluded in Hev.
    + intros root' ->.
      destruct (H root' eq_refl) as (names & cs & -> & _ & Hmap & Hall).
      intros Habs. apply in_map_iff in Habs. destruct Habs as (x & Ex & Hx).
      destruct (@walked_below fs self p cs names 0%Z Hmap Hall _ Hx) as (Hreach & _).
      rewrite Ex in Hreach. now apply reach_excluded in Hreach.
  - intros self a b E. unfold skip_condition. now apply skip_loop_name.
Qed.

Lemma excluded_paths_are_untouched_witness :
  Fnmatch.fnmatch (lit "sub") (lit "s*") = Ok true
  /\ ~ In [lit "t"; lit "sub"; lit "x.txt"]
         (map event_path
            (snd (build_tree (DiskFS.mount Examples.disk_t []) 10 (RootStr (lit "/t")) None
                    (Some [lit "s*"]) [])))
  /\ skip_condition {| root := Examples.tree_t; max_depth := None; exclude := [lit "s*"] |}
       [lit "t"; lit "sub"]
     = skip_condition {| root := Examples.tree_t; max_depth := None; exclude := [lit "s*"] |}
         [lit "elsewhere"; lit "sub"].
Proof.
  destruct excluded_paths_are_untouched as (H1 & H2).
  assert (Hm : Fnmatch.fnmatch (lit "sub") (lit "s*") = Ok true)
    by (vm_compute; reflexivity).
  split; [exact Hm|]. split.
  - refine (proj1 (H1 (DiskFS.mount Examples.disk_t []) 10%nat (RootStr (lit "/t")) [lit "t"] None
                      [lit "s*"] _ _ _ _ [] (lit "sub") (lit "s*") [lit "x.txt"] _ Hm)).
    + vm_compute. reflexivity.
    + apply surjective_pairing.
    + simpl. auto.
  - apply H2. reflexivity.
Defined.

(** ** The renderer *)

(** X15.  The text that [draw] writes for an item is its rows, each behind
    the prefix of the call and before a newline, whatever [is_last] is;
    there is one row for every item below the item. *)
Theorem draw_writes_prefixed_rows item prefix is_last :
  draw item prefix is_last
  = concat (map (fun row => prefix ++ row ++ NEWLINE) (rows item))
  /\ length (rows item) = length (items_below item).
Proof.
  split; [apply draw_rows|].
  induction item as [p|p t|p cs IH] using Item_nested_ind; try reflexivity.
  induction IH as [|child later Hchild _ IHlater]; [reflexivity|].
  rewrite rows_Directory_cons, items_below_Directory_cons.
  cbn [length]. rewrite !length_app, length_map.
  f_equal. f_equal; [exact Hchild|exact IHlater].
Qed.

(** X16.  The lines that [draw] writes show the items below the item it
    is called for, one line for each item and in the order of the tree,
    an item before what it holds: behind the prefix of the call comes an
    indentation whose length is a multiple of four, one of the two
    connectors, a space, the display name of the item and, for a link,
    its target. *)
Theorem draw_lines_show_items item prefix is_last :
  exists lines,
    draw item prefix is_last
    = concat (map (fun line => prefix ++ line ++ NEWLINE) lines)
    /\ Forall2 shows (items_below item) lines.
Proof.
  exists (rows item). split; [apply draw_rows|apply rows_show].
Qed.

(** ** From the command line to the text *)

(** X17.  When [main] draws a root, the text is the name of the root with a
    slash, then the rows of the built tree, each on a line of its own; and
    no item of that tree has a name that one of the exclusion patterns
    matches. *)
Theorem main_one_draws_kept_items fs fuel root_dir depth patterns tr built text tr' :
  main_one fs fuel root_dir depth patterns tr = (Ok (built, text), tr') ->
  text = item_name built ++ lit "/" ++ NEWLINE
         ++ concat (map (fun row => row ++ NEWLINE) (rows built))
  /\ forall x pattern,
       In x (items_below built) -> In pattern patterns ->
       Fnmatch.fnmatch (item_name x) pattern = Ok false.
Proof.
  unfold main_one, bind, lift, Directory_of_str, rbind.
  destruct (fs_resolve fs root_dir) as [p|e]; [|intros H; discriminate].
  erewrite build_tree_unfold by reflexivity.
  match goal with |- context [traverse_tree ?f ?n ?s ?r ?d ?t] =>
    set (self := s); destruct (traverse_tree f n self r d t) as [[b|e] tr1] eqn:E end;
    [|intros H; discriminate].
  unfold ret. intros H. inversion H; subst. split.
  - unfold render, GraphTree_draw. cbn [stdout tree app].
    rewrite (draw_rows built [] true). rewrite <- !app_assoc. reflexivity.
  - intros x pattern Hx Hpat.
    apply traverse_tree_inv in E. destruct E as (_ & _ & _ & E).
    destruct (E built eq_refl) as (names & cs & -> & _ & Hmap & Hall).
    destruct (@walked_below fs self p cs names 0%Z Hmap Hall _ Hx) as (_ & d' & Hb).
    assert (Hs : skipped self (item_path x) = false) by (destruct x; simpl in Hb; tauto).
    destruct (FnmatchFacts.fnmatch_total (item_name x) pattern) as ([|] & Hm); auto.
    assert (Ht : skip_loop (exclude self) (item_path x) = Ok true).
    { apply skip_loop_true. exists pattern. auto. }
    unfold skipped, skip_condition in Hs. rewrite Ht in Hs. discriminate.
Qed.

Lemma main_one_draws_kept_items_witness :
  render (Directory [lit "t"] [Directory [lit "t"; lit "sub"] []])
  = item_name (Directory [lit "t"] [Directory [lit "t"; lit "sub"] []])
    ++ lit "/" ++ NEWLINE
    ++ concat (map (fun row => row ++ NEWLINE)
                 (rows (Directory [lit "t"] [Directory [lit "t"; lit "sub"] []])))
  /\ forall x pattern,
       In x (items_below (Directory [lit "t"] [Directory [lit "t"; lit "sub"] []])) ->
       In pattern [lit "*.txt"] ->
       Fnmatch.fnmatch (item_name x) pattern = Ok false.
Proof.
  refine (@main_one_draws_kept_items (DiskFS.mount Examples.disk_t []) 10 (lit "/t")
            None [lit "*.txt"] [] _ _
            (snd (main_one (DiskFS.mount Examples.disk_t []) 10 (lit "/t") None
                    [lit "*.txt"] [])) _).
  vm_compute. reflexivity.
Defined.
